(** * Speaker-attributed transcript fusion ([flask_app.py])

    A shallow embedding of the fusion core of [process_audio_endpoint]:
    the overlap matcher and dominant-speaker choice (lines 68-90) and the
    role assignment (lines 92-113).

    Modelling conventions.
    - Time stamps are rationals ([Q]): a finite machine float is the
      rational it denotes, and comparing two of them is exact.  The first
      model adds and subtracts exactly; it serves the statements that do not
      depend on the last bits of a total.  Module [Rounded] is the same
      code with [+] and [-] left as parameters, so that its theorems hold
      for the machine's rounded operations as well; [Binary64] gives those
      operations for the examples.  Infinities and NaN are outside both.
    - A Python [dict] is an association list in insertion order with unique
      keys: [max(d, key=d.get)] walks the keys in that order and keeps the
      first maximal one, so the order is observable.
    - Speaker labels are strings; the sentinel ["UNKNOWN"] lives in the same
      type, as in the program.
    - A transcript text is a list of Unicode code points; [strip] follows
      [str.strip()] with Python's table of whitespace code points.
    - The entries of [final_transcript] are records whose [speaker_role] is
      optional: absent after fusion, set by the role loop. *)

From Stdlib Require Import List String Ascii Bool Arith Lia.
From Stdlib Require Import NArith ZArith QArith Qminmax Lqa DecimalString.
From Stdlib Require Import Permutation DecimalNat.
From Stdlib Require Floats Uint63.
Import ListNotations.
Open Scope Q_scope.

(** ** Numbers *)

(** [x < y] as a boolean. *)
Definition Qltb (x y : Q) : bool := negb (Qle_bool y x).

(** Python's two-argument [max(a, b)]: [b] replaces [a] only when [b > a]. *)
Definition py_max (a b : Q) : Q := if Qltb a b then b else a.

(** Python's two-argument [min(a, b)]: [b] replaces [a] only when [b < a]. *)
Definition py_min (a b : Q) : Q := if Qltb b a then b else a.

(** ** Dictionaries *)

Module Dict.
Section Ops.
Context {V : Type}.

Definition t := list (string * V).

(** [d.get(k)] *)
Fixpoint get (d : t) (k : string) : option V :=
  match d with
  | [] => None
  | (k', v) :: r => if String.eqb k' k then Some v else get r k
  end.

(** [d.get(k, dflt)] *)
Definition get_default (d : t) (k : string) (dflt : V) : V :=
  match get d k with Some v => v | None => dflt end.

(** [k in d] *)
Definition mem (d : t) (k : string) : bool :=
  match get d k with Some _ => true | None => false end.

(** [d[k] = v]: an existing key keeps its place, a new key goes last. *)
Fixpoint set (d : t) (k : string) (v : V) : t :=
  match d with
  | [] => [(k, v)]
  | (k', v') :: r =>
      if String.eqb k' k then (k', v) :: r else (k', v') :: set r k v
  end.

Definition keys (d : t) : list string := map fst d.

(** [del d[k]]; on a dictionary, whose keys are unique, at most one entry
    goes. *)
Fixpoint remove (d : t) (k : string) : t :=
  match d with
  | [] => []
  | (k', v) :: r =>
      if String.eqb k' k then remove r k else (k', v) :: remove r k
  end.
End Ops.
Arguments t : clear implicits.
End Dict.

(** [max(d, key=d.get)] on a non-empty dictionary: the keys are visited in
    insertion order and the running best is replaced only by a strictly
    greater value.  Keys are unique, so [d.get(k)] is the value stored next
    to [k]. *)
Fixpoint max_from (best : string) (bestv : Q) (rest : Dict.t Q) : string :=
  match rest with
  | [] => best
  | (k, v) :: r =>
      if Qltb bestv v then max_from k v r else max_from best bestv r
  end.

(** [max(d, key=d.get) if d else "UNKNOWN"] *)
Definition max_key_or_unknown (d : Dict.t Q) : string :=
  match d with
  | [] => "UNKNOWN"%string
  | (k, v) :: r => max_from k v r
  end.

(** ** Data *)

(** One track of [diarization.itertracks(yield_label=True)]. *)
Record turn := mkTurn {
  turn_start : Q;
  turn_end : Q;
  turn_speaker : string
}.

(** One entry of [transcription["segments"]]. *)
Record segment := mkSegment {
  seg_start : Q;
  seg_end : Q;
  seg_text : list N
}.

(** One entry of [final_transcript]. *)
Record utterance := mkUtterance {
  start : Q;
  end_ : Q;
  text : list N;
  speaker : string;
  speaker_role : option string
}.

(** ** Text trimming *)

(** [str.isspace] on one code point. *)
Definition is_space (c : N) : bool :=
  ((9 <=? c) && (c <=? 13) || (28 <=? c) && (c <=? 32)
   || (c =? 133) || (c =? 160) || (c =? 5760)
   || (8192 <=? c) && (c <=? 8202)
   || (c =? 8232) || (c =? 8233) || (c =? 8239) || (c =? 8287)
   || (c =? 12288))%N.

Fixpoint lstrip (s : list N) : list N :=
  match s with
  | [] => []
  | c :: r => if is_space c then lstrip r else s
  end.

Definition rstrip (s : list N) : list N := rev (lstrip (rev s)).

(** [s.strip()] *)
Definition strip (s : list N) : list N := rstrip (lstrip s).

(** Code points of an ASCII literal, for examples. *)
Definition codepoints (s : string) : list N :=
  map N_of_ascii (list_ascii_of_string s).

(** ** Overlap matcher and dominant speaker (lines 74-83) *)

(** Lines 76-78. *)
Definition overlap_duration (segment_start segment_end : Q) (t : turn) : Q :=
  let overlap_start := py_max segment_start (turn_start t) in
  let overlap_end := py_min segment_end (turn_end t) in
  py_max 0 (overlap_end - overlap_start).

(** Lines 76-81: the body of the inner loop. *)
Definition speaker_times_step (segment_start segment_end : Q)
    (speaker_times : Dict.t Q) (t : turn) : Dict.t Q :=
  let d := overlap_duration segment_start segment_end t in
  if Qltb 0 d then
    Dict.set speaker_times (turn_speaker t)
      (Dict.get_default speaker_times (turn_speaker t) 0 + d)
  else speaker_times.

(** Lines 74-81. *)
Definition overlap_durations (segment_start segment_end : Q)
    (turns : list turn) : Dict.t Q :=
  fold_left (speaker_times_step segment_start segment_end) turns [].

(** Line 83. *)
Definition dominant_speaker (speaker_times : Dict.t Q) : string :=
  max_key_or_unknown speaker_times.

(** ** Fusion (lines 68-90) *)

Definition fuse_segment (turns : list turn) (s : segment) : utterance :=
  {| start := seg_start s;
     end_ := seg_end s;
     text := strip (seg_text s);
     speaker :=
       dominant_speaker (overlap_durations (seg_start s) (seg_end s) turns);
     speaker_role := None |}.

(** The outer loop: one [append] per segment. *)
Definition fuse (segments : list segment) (turns : list turn)
    : list utterance :=
  fold_left (fun final_transcript s => final_transcript ++ [fuse_segment turns s])
            segments [].

(** ** Role assignment (lines 92-113) *)

(** Lines 95-97. *)
Definition talk_time_step (speaker_talk_time : Dict.t Q) (seg : utterance)
    : Dict.t Q :=
  let duration := end_ seg - start seg in
  Dict.set speaker_talk_time (speaker seg)
    (Dict.get_default speaker_talk_time (speaker seg) 0 + duration).

(** Lines 93-97. *)
Definition speaker_talk_time (final_transcript : list utterance) : Dict.t Q :=
  fold_left talk_time_step final_transcript [].

(** Line 99. *)
Definition teacher_label (final_transcript : list utterance) : string :=
  max_key_or_unknown (speaker_talk_time final_transcript).

(** [f"Student {n}"] *)
Definition student_label (n : nat) : string :=
  ("Student " ++ NilEmpty.string_of_uint (Nat.to_uint n))%string.

(** [seg['speaker_role'] = r] *)
Definition set_role (seg : utterance) (r : string) : utterance :=
  {| start := start seg; end_ := end_ seg; text := text seg;
     speaker := speaker seg; speaker_role := Some r |}.

(** [speaker_map[k]] where the key is known to be present; the empty string
    stands for the [KeyError] branch, which [role_step_subscript_defined]
    shows is never taken. *)
Definition subscript (speaker_map : Dict.t string) (k : string) : string :=
  match Dict.get speaker_map k with Some v => v | None => EmptyString end.

(** The state of the second loop: [student_counter] and [speaker_map]. *)
Definition role_state : Type := nat * Dict.t string.

(** Lines 104-113: one iteration, returning the new state and the entry with
    its role set. *)
Definition role_step (teacher : string) (st : role_state) (seg : utterance)
    : role_state * utterance :=
  let '(student_counter, speaker_map) := st in
  let original_speaker := speaker seg in
  if String.eqb original_speaker teacher then
    (st, set_role seg "Teacher")
  else if negb (String.eqb original_speaker "UNKNOWN") then
    let st' :=
      if negb (Dict.mem speaker_map original_speaker) then
        (S student_counter,
         Dict.set speaker_map original_speaker (student_label student_counter))
      else st in
    (st', set_role seg (subscript (snd st') original_speaker))
  else
    (st, set_role seg "Unknown").

(** Lines 103-113. *)
Fixpoint role_loop (teacher : string) (st : role_state)
    (final_transcript : list utterance) : list utterance :=
  match final_transcript with
  | [] => []
  | seg :: rest =>
      let '(st', seg') := role_step teacher st seg in
      seg' :: role_loop teacher st' rest
  end.

(** Lines 92-113: [student_counter = 1], [speaker_map = {}]. *)
Definition assign_roles (final_transcript : list utterance) : list utterance :=
  role_loop (teacher_label final_transcript) (1%nat, []) final_transcript.

(** Lines 68-113 as one function of the two model outputs. *)
Definition process (segments : list segment) (turns : list turn)
    : list utterance :=
  assign_roles (fuse segments turns).

(** ** Reference notions used in the statements *)

(** Does turn [t] contribute to speaker [s] for the span? *)
Definition contributes (segment_start segment_end : Q) (s : string) (t : turn)
    : bool :=
  String.eqb (turn_speaker t) s
  && Qltb 0 (overlap_duration segment_start segment_end t).

(** Sum of the positive overlaps of the turns of speaker [s]. *)
Fixpoint overlap_sum (segment_start segment_end : Q) (s : string)
    (turns : list turn) : Q :=
  match turns with
  | [] => 0
  | t :: r =>
      if contributes segment_start segment_end s t
      then overlap_duration segment_start segment_end t
           + overlap_sum segment_start segment_end s r
      else overlap_sum segment_start segment_end s r
  end.

(** Sum of [end - start] over the utterances of speaker [s]. *)
Fixpoint talk_sum (s : string) (us : list utterance) : Q :=
  match us with
  | [] => 0
  | u :: r =>
      if String.eqb (speaker u) s then (end_ u - start u) + talk_sum s r
      else talk_sum s r
  end.

(** Position of the first occurrence of [s]. *)
Fixpoint index_of (s : string) (l : list string) : option nat :=
  match l with
  | [] => None
  | x :: r =>
      if String.eqb x s then Some 0%nat
      else option_map S (index_of s r)
  end.

(** Extend [seen] with the elements of [l] not met before, in order. *)
Fixpoint first_seen_from (seen l : list string) : list string :=
  match l with
  | [] => seen
  | x :: r =>
      match index_of x seen with
      | Some _ => first_seen_from seen r
      | None => first_seen_from (seen ++ [x]) r
      end
  end.

(** Is [s] a student speaker: neither the teacher nor the sentinel? *)
Definition is_student (teacher s : string) : bool :=
  negb (String.eqb s teacher) && negb (String.eqb s "UNKNOWN").

(** The student speakers of a transcript, in order of first appearance. *)
Definition students (us : list utterance) : list string :=
  first_seen_from [] (filter (is_student (teacher_label us)) (map speaker us)).

(** The invariant of the role loop: the counter is one more than the number of students
    met so far, and the map sends the k-th of them to "Student k". *)
Definition numbering_ok (seen : list string) (st : role_state) : Prop :=
  fst st = S (List.length seen)
  /\ forall s, Dict.get (snd st) s
               = option_map (fun k => student_label (S k)) (index_of s seen).

(** The four fields the role loop must leave alone. *)
Definition core (u : utterance) : Q * Q * list N * string :=
  (start u, end_ u, text u, speaker u).

(** The turns that overlap a span, in iteration order. *)
Definition overlapping (segment_start segment_end : Q) (turns : list turn)
    : list turn :=
  filter (fun t => Qltb 0 (overlap_duration segment_start segment_end t)) turns.

(** Is [r] one of the labels "Student 1" ... "Student n"? *)
Definition is_student_label (n : nat) (r : string) : Prop :=
  exists k, (1 <= k <= n)%nat /\ r = student_label k.

(** ** The endpoint (lines 45-121) *)

(** An entry of [request.files]. *)
Record upload := mkUpload {
  filename : string;
  content : list N
}.

(** The files on disk, by path. *)
Definition file_system : Type := Dict.t (list N).

(** A call of a collaborator either raises, with a message, or returns. *)
Inductive outcome (A : Type) : Type :=
| Raised (msg : string)
| Returned (a : A).
Arguments Raised {A} msg.
Arguments Returned {A} a.

(** A loaded model, called on a path: it answers and may touch the disk. *)
Definition model (A : Type) : Type :=
  file_system -> string -> outcome A * file_system.

(** What [jsonify] is given. *)
Inductive body : Type :=
| ErrorBody (error : string)
| TranscriptBody (final_transcript : list utterance).

Record response := mkResponse {
  resp_body : body;
  status : nat
}.

Definition temp_path : string := "temp_audio_file.wav".

(** Lines 61-118: the [try] block with its [except] clause.  The diarization
    model runs first; the transcription model runs only if it returned. *)
Definition try_process (pipeline : model (list turn))
    (whisper_model : model (list segment)) (fs : file_system)
    : response * file_system :=
  let failed e :=
    mkResponse
      (ErrorBody ("An error occurred during processing: " ++ e)%string) 500 in
  match pipeline fs temp_path with
  | (Raised e, fs1) => (failed e, fs1)
  | (Returned diarization, fs1) =>
      match whisper_model fs1 temp_path with
      | (Raised e, fs2) => (failed e, fs2)
      | (Returned segments, fs2) =>
          (mkResponse (TranscriptBody (process segments diarization)) 200, fs2)
      end
  end.

(** Lines 119-121: the [finally] clause. *)
Definition cleanup (fs : file_system) : file_system :=
  if Dict.mem fs temp_path then Dict.remove fs temp_path else fs.

(** Lines 46-121.  [pipeline] and [whisper_model] are the two globals, [None]
    when loading failed at start-up; [files] is [request.files].
    [audio_file.save] (line 58) and [os.remove] (line 121) are taken to
    succeed: a [save] that raises leaves the function before the [try]
    block, without the [finally] clause, and that path is not part of this
    model.  The statements below are about the answer and about requests
    that are refused before line 58. *)
Definition process_audio_endpoint (pipeline : option (model (list turn)))
    (whisper_model : option (model (list segment)))
    (files : Dict.t upload) (fs : file_system) : response * file_system :=
  match Dict.get files "file" with
  | None => (mkResponse (ErrorBody "No file part in the request") 400, fs)
  | Some audio_file =>
      if String.eqb (filename audio_file) "" then
        (mkResponse (ErrorBody "No selected file") 400, fs)
      else
        match pipeline, whisper_model with
        | Some p, Some w =>
            let fs1 := Dict.set fs temp_path (content audio_file) in
            let '(resp, fs2) := try_process p w fs1 in
            (resp, cleanup fs2)
        | _, _ =>
            (mkResponse
               (ErrorBody
                  "A required model is not loaded. Check server logs.") 500,
             fs)
        end
  end.

(** ** The fusion and the talk times with machine arithmetic

    Lines 74-99 again, with the two float operations of the program as
    parameters: [add] is the [+] of lines 81 and 97, [sub] the [-] of lines
    78 and 96.  Nothing is assumed of them.  The integer [0] of [max(0, _)]
    and of [get(_, 0)] is the rational 0. *)

Module Rounded.
Section Arith.
Variables add sub : Q -> Q -> Q.

(** Lines 76-78. *)
Definition overlap_duration (segment_start segment_end : Q) (t : turn) : Q :=
  let overlap_start := py_max segment_start (turn_start t) in
  let overlap_end := py_min segment_end (turn_end t) in
  py_max 0 (sub overlap_end overlap_start).

(** Lines 76-81. *)
Definition speaker_times_step (segment_start segment_end : Q)
    (speaker_times : Dict.t Q) (t : turn) : Dict.t Q :=
  let d := overlap_duration segment_start segment_end t in
  if Qltb 0 d then
    Dict.set speaker_times (turn_speaker t)
      (add (Dict.get_default speaker_times (turn_speaker t) 0) d)
  else speaker_times.

(** Lines 74-81. *)
Definition overlap_durations (segment_start segment_end : Q)
    (turns : list turn) : Dict.t Q :=
  fold_left (speaker_times_step segment_start segment_end) turns [].

(** Lines 70-90. *)
Definition fuse_segment (turns : list turn) (s : segment) : utterance :=
  {| start := seg_start s;
     end_ := seg_end s;
     text := strip (seg_text s);
     speaker :=
       max_key_or_unknown
         (overlap_durations (seg_start s) (seg_end s) turns);
     speaker_role := None |}.

(** Lines 68-90. *)
Definition fuse (segments : list segment) (turns : list turn)
    : list utterance :=
  fold_left (fun final_transcript s => final_transcript ++ [fuse_segment turns s])
            segments [].

(** Lines 95-97. *)
Definition talk_time_step (speaker_talk_time : Dict.t Q) (seg : utterance)
    : Dict.t Q :=
  let duration := sub (end_ seg) (start seg) in
  Dict.set speaker_talk_time (speaker seg)
    (add (Dict.get_default speaker_talk_time (speaker seg) 0) duration).

(** Lines 93-97. *)
Definition speaker_talk_time (final_transcript : list utterance) : Dict.t Q :=
  fold_left talk_time_step final_transcript [].

(** Line 99. *)
Definition teacher_label (final_transcript : list utterance) : string :=
  max_key_or_unknown (speaker_talk_time final_transcript).

(** Lines 92-113. *)
Definition assign_roles (final_transcript : list utterance) : list utterance :=
  role_loop (teacher_label final_transcript) (1%nat, []) final_transcript.

(** Lines 68-113. *)
Definition process (segments : list segment) (turns : list turn)
    : list utterance :=
  assign_roles (fuse segments turns).

(** The total the program computes for speaker [s]: its durations added one
    after the other, in transcript order, starting from 0. *)
Definition talk_total (s : string) (us : list utterance) : Q :=
  fold_left (fun acc u =>
               if String.eqb (speaker u) s
               then add acc (sub (end_ u) (start u)) else acc)
            us 0.

(** Does turn [t] contribute to speaker [s] for the span? *)
Definition contributes (segment_start segment_end : Q) (s : string) (t : turn)
    : bool :=
  Qltb 0 (overlap_duration segment_start segment_end t)
  && String.eqb (turn_speaker t) s.

(** The overlap the program computes for speaker [s]: the positive overlaps
    of its turns added one after the other, in the order visited. *)
Definition overlap_total (segment_start segment_end : Q) (s : string)
    (turns : list turn) : Q :=
  fold_left (fun acc t =>
               if contributes segment_start segment_end s t
               then add acc (overlap_duration segment_start segment_end t)
               else acc)
            turns 0.

(** The turns that overlap a span, in the order visited. *)
Definition overlapping (segment_start segment_end : Q) (turns : list turn)
    : list turn :=
  filter (fun t => Qltb 0 (overlap_duration segment_start segment_end t)) turns.
End Arith.
End Rounded.

(** ** Binary64 operations on rationals, for the examples

    A rational is sent to the nearest float by one correctly rounded
    division (numerator and denominator below 2^53 in absolute value, or a
    power of two below 2^63, so that both convert exactly); a finite float is
    read back as the rational it denotes. *)

Module Binary64.
Definition of_Z (z : Z) : PrimFloat.float :=
  match z with
  | Z0 => PrimFloat.of_uint63 (Uint63.of_Z 0)
  | Zpos _ => PrimFloat.of_uint63 (Uint63.of_Z z)
  | Zneg p => PrimFloat.opp (PrimFloat.of_uint63 (Uint63.of_Z (Zpos p)))
  end.

Definition of_Q (q : Q) : PrimFloat.float :=
  PrimFloat.div (of_Z (Qnum q)) (of_Z (Zpos (Qden q))).

Definition to_Q (f : PrimFloat.float) : Q :=
  match FloatOps.Prim2SF f with
  | SpecFloat.S754_finite s m e =>
      let v := match e with
               | Zneg p => Zpos m # (2 ^ p)
               | _ => inject_Z (Zpos m * 2 ^ e)
               end in
      if s then Qopp v else v
  | _ => 0
  end.

(** The float written with the decimal [q], as a rational. *)
Definition lit (q : Q) : Q := to_Q (of_Q q).

Definition add (x y : Q) : Q := to_Q (PrimFloat.add (of_Q x) (of_Q y)).

Definition sub (x y : Q) : Q := to_Q (PrimFloat.sub (of_Q x) (of_Q y)).
End Binary64.

(** The students met before position [i], in order of first appearance. *)
Definition students_before (teacher : string) (i : nat) (us : list utterance)
    : list string :=
  first_seen_from [] (filter (is_student teacher) (map speaker (firstn i us))).

(** The number the loop gives the speaker [s] when it meets it at position
    [i]: its own if it was met before, the next free one otherwise. *)
Definition student_number (teacher : string) (i : nat) (us : list utterance)
    (s : string) : nat :=
  match index_of s (students_before teacher i us) with
  | Some k => S k
  | None => S (List.length (students_before teacher i us))
  end.

(** Two speakers whose machine totals tie at 0.7 although the exact sum of
    "A" is the larger one. *)
Definition ex_rounding : list utterance :=
  [ mkUtterance 0 (Binary64.lit (3#10)) [] "B" None;
    mkUtterance (Binary64.lit (3#10)) 1 [] "A" None;
    mkUtterance 1 (Binary64.lit (14#10)) [] "B" None ].

(** Turns whose machine overlap totals tie at 0.4 on the segment 0 .. 0.8. *)
Definition ex_rounding_turns : list turn :=
  [ mkTurn (Binary64.lit (1#10)) (Binary64.lit (5#10)) "B";
    mkTurn 0 (Binary64.lit (1#10)) "A";
    mkTurn (Binary64.lit (5#10)) (Binary64.lit (8#10)) "A" ].


(** Unmatched speech outweighs the one matched speaker. *)
Definition ex_unmatched : list utterance :=
  [ mkUtterance 0 10 (codepoints "mumble") "UNKNOWN" None;
    mkUtterance 10 12 (codepoints "hi") "A" None ].

(** Two students around a teacher, the first student speaking twice. *)
Definition ex_class : list utterance :=
  [ mkUtterance 0 1 [] "S1" None;
    mkUtterance 1 9 [] "T" None;
    mkUtterance 9 10 [] "S2" None;
    mkUtterance 10 11 [] "S1" None ].

(** ** Examples *)

Definition ex_turns : list turn :=
  [ mkTurn 0 5 "A"; mkTurn 5 10 "B"; mkTurn (21#2) 12 "A" ].

Definition ex_segments : list segment :=
  [ mkSegment 0 5 (codepoints " hello ");
    mkSegment 5 (19#2) (codepoints "world");
    mkSegment (19#2) 12 (codepoints "again");
    mkSegment 20 21 (codepoints "noise") ].

(** Collaborators for the examples: both answer without touching the disk;
    a third one raises. *)
Definition ex_pipeline : model (list turn) :=
  fun fs _ => (Returned ex_turns, fs).

Definition ex_whisper : model (list segment) :=
  fun fs _ => (Returned ex_segments, fs).

Definition ex_broken_pipeline : model (list turn) :=
  fun fs _ => (Raised "decode error", fs).

Definition ex_files : Dict.t upload :=
  [ ("file"%string, mkUpload "lesson.wav" [82; 73; 70; 70]%N) ].

Definition ex_disk : file_system :=
  [ ("notes.txt"%string, [1]%N); (temp_path, [2]%N) ].

Example ex_process_roles :
  map (fun u => (speaker u, speaker_role u)) (process ex_segments ex_turns)
  = [ ("A", Some "Teacher"); ("B", Some "Student 1");
      ("A", Some "Teacher"); ("UNKNOWN", Some "Unknown") ]%string.
Proof. vm_compute. reflexivity. Qed.

Example ex_strip :
  strip (codepoints "  hello world ") = codepoints "hello world".
Proof. reflexivity. Qed.

(** ** Comparisons *)

Lemma Qltb_lt (x y : Q) : Qltb x y = true <-> x < y.
Proof.
  unfold Qltb. rewrite negb_true_iff.
  split; intro H.
  - apply Qnot_le_lt. intro Hle.
    apply Qle_bool_iff in Hle. congruence.
  - destruct (Qle_bool y x) eqn:E; [|reflexivity].
    apply Qle_bool_iff in E. lra.
Qed.

Lemma Qltb_ge (x y : Q) : Qltb x y = false <-> y <= x.
Proof.
  unfold Qltb. rewrite negb_false_iff. apply Qle_bool_iff.
Qed.

Ltac qltb :=
  repeat match goal with
  | H : Qltb _ _ = true |- _ => apply Qltb_lt in H
  | H : Qltb _ _ = false |- _ => apply Qltb_ge in H
  | |- Qltb _ _ = true => apply Qltb_lt
  | |- Qltb _ _ = false => apply Qltb_ge
  end.



Lemma py_max_0_nonneg (x : Q) : 0 <= py_max 0 x.
Proof.
  unfold py_max. destruct (Qltb 0 x) eqn:E; qltb; lra.
Qed.

(** ** Dictionary facts *)

Module DictFacts.
Section Facts.
Context {V : Type}.
Implicit Types (d : Dict.t V) (k : string) (v : V).

Lemma get_set_same d k v : Dict.get (Dict.set d k v) k = Some v.
Proof.
  induction d as [|[k' v'] r IH]; simpl.
  - now rewrite String.eqb_refl.
  - destruct (String.eqb k' k) eqn:E; simpl; rewrite E; auto.
Qed.

Lemma get_set_other d k k' v :
  k <> k' -> Dict.get (Dict.set d k v) k' = Dict.get d k'.
Proof.
  intros Hne. induction d as [|[k0 v0] r IH]; simpl.
  - destruct (String.eqb k k') eqn:E; [|reflexivity].
    apply String.eqb_eq in E. contradiction.
  - destruct (String.eqb k0 k) eqn:E; simpl.
    + apply String.eqb_eq in E. subst k0.
      destruct (String.eqb k k') eqn:E'; [|reflexivity].
      apply String.eqb_eq in E'. contradiction.
    + now rewrite IH.
Qed.

Lemma get_set d k k' v :
  Dict.get (Dict.set d k v) k'
  = if String.eqb k k' then Some v else Dict.get d k'.
Proof.
  destruct (String.eqb k k') eqn:E.
  - apply String.eqb_eq in E. subst. apply get_set_same.
  - apply String.eqb_neq in E. now apply get_set_other.
Qed.

Lemma get_In_keys d k v : Dict.get d k = Some v -> In k (Dict.keys d).
Proof.
  induction d as [|[k' v'] r IH]; simpl; [discriminate|].
  destruct (String.eqb k' k) eqn:E.
  - apply String.eqb_eq in E. auto.
  - auto.
Qed.

Lemma get_None_keys d k : Dict.get d k = None -> ~ In k (Dict.keys d).
Proof.
  induction d as [|[k' v'] r IH]; simpl; [tauto|].
  destruct (String.eqb k' k) eqn:E; [discriminate|].
  apply String.eqb_neq in E. intros Hn [Hk|Hk]; [contradiction|].
  now apply IH.
Qed.

Lemma In_get d k v :
  NoDup (Dict.keys d) -> In (k, v) d -> Dict.get d k = Some v.
Proof.
  induction d as [|[k' v'] r IH]; simpl; [tauto|].
  intros Hnd [Heq|Hin].
  - inversion Heq; subst. now rewrite String.eqb_refl.
  - inversion Hnd as [|? ? Hnotin Hnd']; subst.
    destruct (String.eqb k' k) eqn:E.
    + apply String.eqb_eq in E. subst k'.
      exfalso. apply Hnotin. change k with (fst (k, v)).
      now apply in_map.
    + auto.
Qed.

Lemma get_In d k v : Dict.get d k = Some v -> In (k, v) d.
Proof.
  induction d as [|[k' v'] r IH]; simpl; [discriminate|].
  destruct (String.eqb k' k) eqn:E.
  - apply String.eqb_eq in E. intros [= ->]. subst. now left.
  - auto.
Qed.

Lemma keys_set d k v :
  Dict.keys (Dict.set d k v)
  = if Dict.mem d k then Dict.keys d else Dict.keys d ++ [k].
Proof.
  unfold Dict.mem.
  induction d as [|[k' v'] r IH]; simpl; [reflexivity|].
  destruct (String.eqb k' k) eqn:E; simpl; [reflexivity|].
  rewrite IH. now destruct (Dict.get r k).
Qed.

Lemma NoDup_keys_set d k v :
  NoDup (Dict.keys d) -> NoDup (Dict.keys (Dict.set d k v)).
Proof.
  intros Hnd. rewrite keys_set. unfold Dict.mem.
  destruct (Dict.get d k) eqn:E; [exact Hnd|].
  apply get_None_keys in E.
  apply NoDup_rev in Hnd.
  rewrite <- (rev_involutive (Dict.keys d ++ [k])).
  apply NoDup_rev. rewrite rev_app_distr. simpl.
  constructor; [|exact Hnd].
  now rewrite <- in_rev.
Qed.

Lemma set_not_nil d k v : Dict.set d k v <> [].
Proof.
  destruct d as [|[k' v'] r]; simpl; [discriminate|].
  destruct (String.eqb k' k); discriminate.
Qed.
End Facts.
End DictFacts.

(** ** The arg-max over a dictionary *)

(** The winner is an entry, and no entry has a greater value. *)
Lemma max_from_spec (rest : Dict.t Q) (best : string) (bestv : Q) :
  exists v, In (max_from best bestv rest, v) ((best, bestv) :: rest)
            /\ forall k' v', In (k', v') ((best, bestv) :: rest) -> v' <= v.
Proof.
  revert best bestv.
  induction rest as [|[k v] r IH]; intros best bestv; simpl.
  - exists bestv. split; [now left|].
    intros k' v' [[= <- <-]|[]]. lra.
  - destruct (Qltb bestv v) eqn:E; qltb.
    + destruct (IH k v) as (w & Hin & Hmax).
      exists w. split; [right; exact Hin|].
      intros k' v' [[= <- <-]|Hin'].
      * specialize (Hmax k v (or_introl eq_refl)). lra.
      * now apply (Hmax k').
    + destruct (IH best bestv) as (w & Hin & Hmax).
      exists w. split.
      * destruct Hin as [Hin|Hin]; [now left|now right; right].
      * intros k' v' [Heq|[[= <- <-]|Hin']].
        -- apply (Hmax k'). now left.
        -- specialize (Hmax best bestv (or_introl eq_refl)). lra.
        -- apply (Hmax k'). now right.
Qed.

Lemma max_key_In (d : Dict.t Q) :
  d <> [] -> In (max_key_or_unknown d) (Dict.keys d).
Proof.
  destruct d as [|[k v] r]; [congruence|]. intros _.
  destruct (max_from_spec r k v) as (w & Hin & _).
  unfold max_key_or_unknown, Dict.keys.
  change (max_from k v r) with (fst (max_from k v r, w)).
  now apply in_map.
Qed.

(** With unique keys the winner's value bounds every stored value. *)
Lemma max_key_maximal (d : Dict.t Q) (k : string) (v : Q) :
  NoDup (Dict.keys d) -> Dict.get d k = Some v ->
  exists w, Dict.get d (max_key_or_unknown d) = Some w /\ v <= w.
Proof.
  intros Hnd Hget.
  destruct d as [|[k0 v0] r]; [discriminate|].
  destruct (max_from_spec r k0 v0) as (w & Hin & Hmax).
  exists w. split.
  - now apply DictFacts.In_get.
  - apply (Hmax k). now apply DictFacts.get_In.
Qed.

(** A key whose value strictly exceeds all the others is the winner. *)
Lemma max_key_strict (d : Dict.t Q) (a : string) (va : Q) :
  NoDup (Dict.keys d) -> Dict.get d a = Some va ->
  (forall k v, k <> a -> Dict.get d k = Some v -> v < va) ->
  max_key_or_unknown d = a.
Proof.
  intros Hnd Ha Hstrict.
  destruct (max_key_maximal d a va Hnd Ha) as (w & Hw & Hle).
  destruct (string_dec (max_key_or_unknown d) a) as [|Hne]; [assumption|].
  specialize (Hstrict _ _ Hne Hw). lra.
Qed.

(** ** The overlap matcher *)

Section Matcher.
Variables segment_start segment_end : Q.

Local Abbreviation step := (speaker_times_step segment_start segment_end).
Local Abbreviation od := (overlap_duration segment_start segment_end).
Local Abbreviation osum := (overlap_sum segment_start segment_end).


Lemma overlap_duration_nonneg (t : turn) : 0 <= od t.
Proof. apply py_max_0_nonneg. Qed.

Lemma contributes_iff (s : string) (t : turn) :
  contributes segment_start segment_end s t = true
  <-> turn_speaker t = s /\ 0 < od t.
Proof.
  unfold contributes.
  rewrite andb_true_iff, String.eqb_eq, Qltb_lt. reflexivity.
Qed.

Lemma overlap_sum_nonneg (s : string) (turns : list turn) :
  0 <= osum s turns.
Proof.
  induction turns as [|t r IH]; simpl; [lra|].
  destruct (contributes _ _ s t); [|exact IH].
  pose proof (overlap_duration_nonneg t). lra.
Qed.

(** The loop started from any dictionary: what is stored under [s]
    afterwards. *)
Lemma fold_step_get (turns : list turn) (d : Dict.t Q) (s : string) :
  match Dict.get (fold_left step turns d) s with
  | Some v =>
      v == Dict.get_default d s 0 + osum s turns
      /\ (Dict.mem d s = true
          \/ existsb (contributes segment_start segment_end s) turns = true)
  | None =>
      Dict.get d s = None
      /\ existsb (contributes segment_start segment_end s) turns = false
  end.
Proof.
  revert d. induction turns as [|t r IH]; intros d; simpl.
  - unfold Dict.get_default, Dict.mem.
    destruct (Dict.get d s); [split; [lra|now left]|now split].
  - specialize (IH (step d t)).
    destruct (Dict.get (fold_left step r (step d t)) s) as [v|].
    + destruct IH as [Hv Hmem].
      unfold speaker_times_step, contributes, Dict.get_default, Dict.mem
        in *. cbv zeta in *.
      destruct (Qltb 0 (od t)) eqn:Epos.
      * rewrite DictFacts.get_set in Hv, Hmem.
        destruct (String.eqb (turn_speaker t) s) eqn:Es; simpl.
        -- apply String.eqb_eq in Es. subst s.
           split; [|now right].
           destruct (Dict.get d (turn_speaker t)); lra.
        -- split; [exact Hv|exact Hmem].
      * rewrite andb_false_r. simpl. split; [exact Hv|exact Hmem].
    + destruct IH as [Hnone Hex].
      unfold speaker_times_step, contributes in *. cbv zeta in *.
      destruct (Qltb 0 (od t)) eqn:Epos.
      * rewrite DictFacts.get_set in Hnone.
        destruct (String.eqb (turn_speaker t) s); [discriminate|].
        simpl. split; [exact Hnone|exact Hex].
      * rewrite andb_false_r. simpl. split; [exact Hnone|exact Hex].
Qed.

(** A contributing turn makes the sum strictly positive. *)
Lemma overlap_sum_pos (s : string) (turns : list turn) :
  existsb (contributes segment_start segment_end s) turns = true ->
  0 < osum s turns.
Proof.
  induction turns as [|t r IH]; simpl; [discriminate|].
  destruct (contributes segment_start segment_end s t) eqn:E; simpl.
  - intros _. apply contributes_iff in E. destruct E as [_ Hpos].
    pose proof (overlap_sum_nonneg s r). lra.
  - exact IH.
Qed.

Lemma fold_step_NoDup (turns : list turn) (d : Dict.t Q) :
  NoDup (Dict.keys d) -> NoDup (Dict.keys (fold_left step turns d)).
Proof.
  revert d. induction turns as [|t r IH]; intros d Hnd; simpl; [exact Hnd|].
  apply IH. unfold speaker_times_step. cbv zeta.
  destruct (Qltb 0 (od t)); [|exact Hnd].
  now apply DictFacts.NoDup_keys_set.
Qed.

Lemma overlap_durations_NoDup (turns : list turn) :
  NoDup (Dict.keys (overlap_durations segment_start segment_end turns)).
Proof. apply fold_step_NoDup. constructor. Qed.

Lemma fold_step_not_nil (turns : list turn) (d : Dict.t Q) :
  d <> [] -> fold_left step turns d <> [].
Proof.
  revert d. induction turns as [|t r IH]; intros d Hd; simpl; [exact Hd|].
  apply IH. unfold speaker_times_step. cbv zeta.
  destruct (Qltb 0 (od t)); [|exact Hd].
  apply DictFacts.set_not_nil.
Qed.

(** The mapping is empty exactly when no turn has positive overlap. *)
Lemma overlap_durations_nil_iff (turns : list turn) :
  overlap_durations segment_start segment_end turns = []
  <-> forall t, In t turns -> ~ 0 < od t.
Proof.
  unfold overlap_durations.
  induction turns as [|t r IH]; simpl.
  - split; [intros _ t []|reflexivity].
  - unfold speaker_times_step at 2. cbv zeta.
    destruct (Qltb 0 (od t)) eqn:E.
    + split.
      * intros H. exfalso. revert H. apply fold_step_not_nil.
        apply DictFacts.set_not_nil.
      * intros H. exfalso. apply (H t); [now left|now qltb].
    + rewrite IH. split.
      * intros H t' [<-|Hin]; [qltb; lra|now apply H].
      * intros H t' Hin. apply H. now right.
Qed.
End Matcher.

Lemma existsb_contributes_turn (ss se : Q) (s : string) (turns : list turn) :
  existsb (contributes ss se s) turns = true ->
  exists t, In t turns /\ turn_speaker t = s /\ 0 < overlap_duration ss se t.
Proof.
  intros H. apply existsb_exists in H. destruct H as (t & Hin & Hc).
  apply contributes_iff in Hc. now exists t.
Qed.

Lemma existsb_contributes_none (ss se : Q) (s : string) (turns : list turn) :
  existsb (contributes ss se s) turns = false ->
  forall t, In t turns -> turn_speaker t = s -> ~ 0 < overlap_duration ss se t.
Proof.
  intros H t Hin Hs Hpos.
  assert (Hex : existsb (contributes ss se s) turns = true).
  { apply existsb_exists. exists t. split; [exact Hin|].
    now apply contributes_iff. }
  congruence.
Qed.

(** What the matcher stores under a speaker. *)
Lemma overlap_durations_get (ss se : Q) (turns : list turn) (s : string) :
  match Dict.get (overlap_durations ss se turns) s with
  | Some v =>
      v == overlap_sum ss se s turns /\ 0 < v
      /\ exists t, In t turns /\ turn_speaker t = s
                   /\ 0 < overlap_duration ss se t
  | None =>
      forall t, In t turns -> turn_speaker t = s ->
                ~ 0 < overlap_duration ss se t
  end.
Proof.
  unfold overlap_durations.
  pose proof (fold_step_get ss se turns [] s) as H.
  destruct (Dict.get (fold_left (speaker_times_step ss se) turns []) s)
    as [v|].
  - destruct H as [Hv [Hmem|Hex]]; [discriminate|].
    unfold Dict.get_default in Hv. simpl in Hv.
    assert (Hsum : v == overlap_sum ss se s turns) by lra.
    split; [exact Hsum|]. split.
    + pose proof (overlap_sum_pos ss se s turns Hex). lra.
    + now apply existsb_contributes_turn.
  - destruct H as [_ Hex]. now apply existsb_contributes_none.
Qed.



(** Two turns of one speaker over the same segment are added up. *)
Example ex_overlap_two_turns :
  overlap_durations 0 10 [mkTurn 0 2 "A"; mkTurn 3 20 "B"; mkTurn 1 4 "A"]
  = [("A"%string, 0 + 2 + 3); ("B"%string, 0 + 7)].
Proof. reflexivity. Qed.

(** ** Trimming *)

Lemma lstrip_split (s : list N) :
  exists pre, s = pre ++ lstrip s /\ forallb is_space pre = true.
Proof.
  induction s as [|c r IH]; simpl.
  - now exists [].
  - destruct (is_space c) eqn:E.
    + destruct IH as (pre & Hs & Hpre).
      exists (c :: pre). simpl. rewrite E, Hpre. split; [|reflexivity].
      now rewrite <- Hs.
    + now exists [].
Qed.

Lemma lstrip_head (s : list N) :
  match lstrip s with [] => True | c :: _ => is_space c = false end.
Proof.
  induction s as [|c r IH]; simpl; [exact I|].
  destruct (is_space c) eqn:E; [exact IH|exact E].
Qed.

Lemma rstrip_split (s : list N) :
  exists post, s = rstrip s ++ post /\ forallb is_space post = true.
Proof.
  unfold rstrip.
  destruct (lstrip_split (rev s)) as (pre & Hs & Hpre).
  exists (rev pre). split.
  - rewrite <- rev_app_distr, <- Hs. symmetry. apply rev_involutive.
  - rewrite forallb_forall in *. intros x Hx. apply Hpre.
    now apply in_rev.
Qed.

Lemma rstrip_last (s : list N) :
  match rev (rstrip s) with [] => True | c :: _ => is_space c = false end.
Proof.
  unfold rstrip. rewrite rev_involutive. apply lstrip_head.
Qed.

(** [strip s] is [s] without a whitespace prefix and a whitespace suffix,
    and neither begins nor ends with whitespace. *)
Lemma strip_spec (s : list N) :
  (exists pre post,
      s = pre ++ strip s ++ post
      /\ forallb is_space pre = true /\ forallb is_space post = true)
  /\ match strip s with [] => True | c :: _ => is_space c = false end
  /\ match rev (strip s) with [] => True | c :: _ => is_space c = false end.
Proof.
  unfold strip.
  destruct (lstrip_split s) as (pre & Hs & Hpre).
  destruct (rstrip_split (lstrip s)) as (post & Hl & Hpost).
  split; [|split].
  - exists pre, post. split; [|now split].
    now rewrite <- Hl.
  - pose proof (lstrip_head s) as Hh. rewrite Hl in Hh.
    destruct (rstrip (lstrip s)); [exact I|exact Hh].
  - apply rstrip_last.
Qed.

(** ** Fusion *)

Lemma fold_append_map {A B : Type} (f : A -> B) (l : list A) (acc : list B) :
  fold_left (fun out x => out ++ [f x]) l acc = acc ++ map f l.
Proof.
  revert acc. induction l as [|x r IH]; intros acc; simpl.
  - now rewrite app_nil_r.
  - rewrite IH, <- app_assoc. reflexivity.
Qed.

Lemma fuse_map (segments : list segment) (turns : list turn) :
  fuse segments turns = map (fuse_segment turns) segments.
Proof. unfold fuse. now rewrite fold_append_map. Qed.

(** C4: fusion yields one utterance per segment, in order; the i-th carries
    the i-th segment's start, end and its text trimmed of surrounding
    whitespace. *)
Theorem C4_fuse_one_per_segment (segments : list segment) (turns : list turn) :
  List.length (fuse segments turns) = List.length segments
  /\ (forall i,
        nth_error (fuse segments turns) i
        = option_map (fuse_segment turns) (nth_error segments i))
  /\ map (fun u => (start u, end_ u, text u)) (fuse segments turns)
     = map (fun s => (seg_start s, seg_end s, strip (seg_text s))) segments
  /\ (forall s,
        (exists pre post,
            s = pre ++ strip s ++ post
            /\ forallb is_space pre = true /\ forallb is_space post = true)
        /\ match strip s with [] => True | c :: _ => is_space c = false end
        /\ match rev (strip s) with
           | [] => True | c :: _ => is_space c = false end).
Proof.
  rewrite fuse_map. split; [|split; [|split]].
  - apply length_map.
  - intros i. apply nth_error_map.
  - rewrite map_map. reflexivity.
  - apply strip_spec.
Qed.

(** ** The sentinel *)

Lemma overlap_durations_keys (ss se : Q) (turns : list turn) (s : string) :
  In s (Dict.keys (overlap_durations ss se turns)) ->
  exists t, In t turns /\ turn_speaker t = s /\ 0 < overlap_duration ss se t.
Proof.
  intros Hin.
  pose proof (overlap_durations_get ss se turns s) as H.
  destruct (Dict.get (overlap_durations ss se turns) s) eqn:E.
  - tauto.
  - apply DictFacts.get_None_keys in E. contradiction.
Qed.

Lemma dominant_speaker_nil : dominant_speaker [] = "UNKNOWN"%string.
Proof. reflexivity. Qed.

(** A non-empty mapping gives the label of a turn with positive overlap. *)
Lemma dominant_speaker_turn (ss se : Q) (turns : list turn) :
  overlap_durations ss se turns <> [] ->
  exists t, In t turns
            /\ turn_speaker t
               = dominant_speaker (overlap_durations ss se turns)
            /\ 0 < overlap_duration ss se t.
Proof.
  intros Hne. apply overlap_durations_keys.
  now apply max_key_In.
Qed.

Lemma C3_counterexample :
  ~ (forall (turns : list turn) (s : segment),
        speaker (fuse_segment turns s) = "UNKNOWN"%string
        <-> forall t, In t turns ->
                      ~ 0 < overlap_duration (seg_start s) (seg_end s) t).
Proof.
  intros H.
  specialize (H [mkTurn 0 5 "UNKNOWN"] (mkSegment 0 5 [])).
  destruct H as [H _].
  apply (H eq_refl (mkTurn 0 5 "UNKNOWN")); [now left|].
  reflexivity.
Qed.

(** C3 (amended): a segment with no positive overlap against any turn is
    fused with speaker "UNKNOWN", and the resolver returns "UNKNOWN" on the
    empty mapping; provided no diarization turn is itself labelled
    "UNKNOWN", the converse holds as well: the fused speaker is "UNKNOWN"
    only if no turn has positive overlap, and the resolver returns it only
    on the empty mapping. *)
Theorem C3_unknown_iff_no_overlap (turns : list turn) (s : segment) :
  ((forall t, In t turns ->
              ~ 0 < overlap_duration (seg_start s) (seg_end s) t) ->
   speaker (fuse_segment turns s) = "UNKNOWN"%string)
  /\ dominant_speaker [] = "UNKNOWN"%string
  /\ ((forall t, In t turns -> turn_speaker t <> "UNKNOWN"%string) ->
      (speaker (fuse_segment turns s) = "UNKNOWN"%string
       <-> forall t, In t turns ->
                     ~ 0 < overlap_duration (seg_start s) (seg_end s) t)
      /\ (dominant_speaker
            (overlap_durations (seg_start s) (seg_end s) turns)
          = "UNKNOWN"%string
          <-> overlap_durations (seg_start s) (seg_end s) turns = [])).
Proof.
  assert (Hnil : overlap_durations (seg_start s) (seg_end s) turns = [] ->
                 speaker (fuse_segment turns s) = "UNKNOWN"%string).
  { intros E. simpl. now rewrite E. }
  split; [|split].
  - intros H. apply Hnil. now apply overlap_durations_nil_iff.
  - reflexivity.
  - intros Hlab.
    assert (Hconv : dominant_speaker
                      (overlap_durations (seg_start s) (seg_end s) turns)
                    = "UNKNOWN"%string ->
                    overlap_durations (seg_start s) (seg_end s) turns = []).
    { intros Hd.
      destruct (overlap_durations (seg_start s) (seg_end s) turns)
        as [|e r] eqn:E; [reflexivity|].
      exfalso.
      destruct (dominant_speaker_turn (seg_start s) (seg_end s) turns)
        as (t & Hin & Ht & _); [rewrite E; discriminate|].
      apply (Hlab t Hin). rewrite Ht, E. exact Hd. }
    split; split.
    + intros Hs. apply overlap_durations_nil_iff. now apply Hconv.
    + intros H. apply Hnil. now apply overlap_durations_nil_iff.
    + exact Hconv.
    + intros E. now rewrite E.
Qed.

Lemma C3_unknown_iff_no_overlap_witness :
  speaker (fuse_segment ex_turns (mkSegment 20 21 [])) = "UNKNOWN"%string
  <-> forall t, In t ex_turns -> ~ 0 < overlap_duration 20 21 t.
Proof.
  apply (C3_unknown_iff_no_overlap ex_turns (mkSegment 20 21 [])).
  unfold ex_turns. intros t Hin. simpl in Hin.
  destruct Hin as [<-|[<-|[<-|[]]]]; vm_compute; discriminate.
Defined.

(** ** Talk time *)

Lemma fold_talk_get (us : list utterance) (d : Dict.t Q) (s : string) :
  match Dict.get (fold_left talk_time_step us d) s with
  | Some v =>
      v == Dict.get_default d s 0 + talk_sum s us
      /\ (Dict.mem d s = true \/ In s (map speaker us))
  | None => Dict.get d s = None /\ ~ In s (map speaker us)
  end.
Proof.
  revert d. induction us as [|u r IH]; intros d; simpl.
  - unfold Dict.get_default, Dict.mem.
    destruct (Dict.get d s); [split; [lra|now left]|split; [reflexivity|tauto]].
  - specialize (IH (talk_time_step d u)).
    destruct (Dict.get (fold_left talk_time_step r (talk_time_step d u)) s)
      as [v|].
    + destruct IH as [Hv Hmem].
      unfold talk_time_step, Dict.get_default, Dict.mem in *. cbv zeta in *.
      rewrite DictFacts.get_set in Hv, Hmem.
      destruct (String.eqb (speaker u) s) eqn:Es.
      * apply String.eqb_eq in Es. subst s.
        split; [|right; now left].
        destruct (Dict.get d (speaker u)); lra.
      * split; [exact Hv|]. destruct Hmem as [Hm|Hin]; [now left|].
        right. now right.
    + destruct IH as [Hnone Hin].
      unfold talk_time_step in Hnone. cbv zeta in Hnone.
      rewrite DictFacts.get_set in Hnone.
      destruct (String.eqb (speaker u) s) eqn:Es; [discriminate|].
      apply String.eqb_neq in Es. split; [exact Hnone|].
      intros [Heq|Hin']; [contradiction|contradiction].
Qed.

(** What is stored under a speaker after lines 93-97. *)
Lemma speaker_talk_time_get (us : list utterance) (s : string) :
  match Dict.get (speaker_talk_time us) s with
  | Some v => v == talk_sum s us /\ In s (map speaker us)
  | None => ~ In s (map speaker us)
  end.
Proof.
  unfold speaker_talk_time.
  pose proof (fold_talk_get us [] s) as H.
  destruct (Dict.get (fold_left talk_time_step us []) s) as [v|].
  - destruct H as [Hv [Hm|Hin]]; [discriminate|].
    unfold Dict.get_default in Hv. simpl in Hv. split; [lra|exact Hin].
  - tauto.
Qed.

Lemma speaker_talk_time_In (us : list utterance) (s : string) :
  In s (map speaker us) ->
  exists v, Dict.get (speaker_talk_time us) s = Some v /\ v == talk_sum s us.
Proof.
  intros Hin. pose proof (speaker_talk_time_get us s) as H.
  destruct (Dict.get (speaker_talk_time us) s) as [v|].
  - exists v. tauto.
  - contradiction.
Qed.

Lemma fold_talk_NoDup (us : list utterance) (d : Dict.t Q) :
  NoDup (Dict.keys d) -> NoDup (Dict.keys (fold_left talk_time_step us d)).
Proof.
  revert d. induction us as [|u r IH]; intros d Hnd; simpl; [exact Hnd|].
  apply IH. now apply DictFacts.NoDup_keys_set.
Qed.

Lemma speaker_talk_time_NoDup (us : list utterance) :
  NoDup (Dict.keys (speaker_talk_time us)).
Proof. apply fold_talk_NoDup. constructor. Qed.

Lemma fold_talk_not_nil (us : list utterance) (d : Dict.t Q) :
  d <> [] -> fold_left talk_time_step us d <> [].
Proof.
  revert d. induction us as [|u r IH]; intros d Hd; simpl; [exact Hd|].
  apply IH. apply DictFacts.set_not_nil.
Qed.

Lemma speaker_talk_time_not_nil (us : list utterance) :
  us <> [] -> speaker_talk_time us <> [].
Proof.
  destruct us as [|u r]; [congruence|]. intros _.
  unfold speaker_talk_time. simpl.
  apply fold_talk_not_nil. apply DictFacts.set_not_nil.
Qed.

(** The talk-time mapping reads only start, end and speaker. *)
Lemma fold_talk_core (us us' : list utterance) (d : Dict.t Q) :
  map core us = map core us' ->
  fold_left talk_time_step us d = fold_left talk_time_step us' d.
Proof.
  revert us' d. induction us as [|u r IH]; intros [|u' r'] d H;
    simpl in *; try discriminate; [reflexivity|].
  unfold core in H. injection H as Hs He _ Hsp Hr.
  assert (Hstep : talk_time_step d u = talk_time_step d u').
  { unfold talk_time_step. now rewrite Hs, He, Hsp. }
  rewrite Hstep. now apply IH.
Qed.

(** ** The teacher *)

Lemma teacher_label_In (us : list utterance) :
  us <> [] -> In (teacher_label us) (map speaker us).
Proof.
  intros Hne.
  pose proof (max_key_In (speaker_talk_time us)
                (speaker_talk_time_not_nil us Hne)) as Hin.
  pose proof (speaker_talk_time_get us (teacher_label us)) as H.
  fold (teacher_label us) in Hin.
  destruct (Dict.get (speaker_talk_time us) (teacher_label us)) eqn:E.
  - tauto.
  - apply DictFacts.get_None_keys in E. contradiction.
Qed.

Lemma teacher_label_maximal (us : list utterance) (s : string) :
  In s (map speaker us) ->
  talk_sum s us <= talk_sum (teacher_label us) us.
Proof.
  intros Hin.
  destruct (speaker_talk_time_In us s Hin) as (v & Hget & Hv).
  destruct (max_key_maximal _ _ _ (speaker_talk_time_NoDup us) Hget)
    as (w & Hw & Hle).
  fold (teacher_label us) in Hw.
  pose proof (speaker_talk_time_get us (teacher_label us)) as H.
  rewrite Hw in H. destruct H as [Hwv _]. lra.
Qed.

Lemma teacher_label_strict (us : list utterance) (a : string) :
  In a (map speaker us) ->
  (forall s, In s (map speaker us) -> s <> a ->
             talk_sum s us < talk_sum a us) ->
  teacher_label us = a.
Proof.
  intros Hin Hstrict.
  destruct (speaker_talk_time_In us a Hin) as (va & Hget & Hva).
  apply (max_key_strict _ a va (speaker_talk_time_NoDup us) Hget).
  intros k v Hne Hk.
  pose proof (speaker_talk_time_get us k) as H. rewrite Hk in H.
  destruct H as [Hv Hkin].
  specialize (Hstrict k Hkin Hne). lra.
Qed.

(** ** The role loop *)

Lemma role_step_core (t : string) (st : role_state) (u : utterance) :
  core (snd (role_step t st u)) = core u
  /\ speaker_role (snd (role_step t st u)) <> None.
Proof.
  unfold role_step. destruct st as [c m].
  destruct (String.eqb (speaker u) t); [split; [reflexivity|discriminate]|].
  destruct (negb (String.eqb (speaker u) "UNKNOWN"));
    split; try reflexivity; discriminate.
Qed.

Lemma role_loop_core (t : string) (us : list utterance) (st : role_state) :
  map core (role_loop t st us) = map core us.
Proof.
  revert st. induction us as [|u r IH]; intros st; simpl; [reflexivity|].
  pose proof (role_step_core t st u) as [Hc _].
  destruct (role_step t st u) as [st' u']. simpl in *.
  now rewrite Hc, IH.
Qed.

Lemma role_loop_labelled (t : string) (us : list utterance) (st : role_state) :
  Forall (fun u => speaker_role u <> None) (role_loop t st us).
Proof.
  revert st. induction us as [|u r IH]; intros st; simpl; [constructor|].
  pose proof (role_step_core t st u) as [_ Hr].
  destruct (role_step t st u) as [st' u']. simpl in *.
  constructor; [exact Hr|apply IH].
Qed.

(** What one iteration writes, by the case of the speaker. *)
Lemma role_step_teacher (t : string) (st : role_state) (u : utterance) :
  speaker u = t -> role_step t st u = (st, set_role u "Teacher").
Proof.
  intros <-. unfold role_step. destruct st. now rewrite String.eqb_refl.
Qed.

Lemma role_step_unknown (t : string) (st : role_state) (u : utterance) :
  speaker u <> t -> speaker u = "UNKNOWN"%string ->
  role_step t st u = (st, set_role u "Unknown").
Proof.
  intros Hne Hu. unfold role_step. destruct st.
  apply String.eqb_neq in Hne. rewrite Hne, Hu. reflexivity.
Qed.

Lemma role_loop_teacher (t : string) (us : list utterance) (st : role_state) :
  Forall (fun u => speaker u = t -> speaker_role u = Some "Teacher"%string)
         (role_loop t st us).
Proof.
  revert st. induction us as [|u r IH]; intros st; simpl; [constructor|].
  pose proof (role_step_core t st u) as [Hc _].
  pose proof (role_step_teacher t st u) as Ht.
  destruct (role_step t st u) as [st' u']. simpl in *.
  constructor; [|apply IH].
  intros Hsp. unfold core in Hc. injection Hc as _ _ _ Hs.
  rewrite Hs in Hsp. specialize (Ht Hsp). now injection Ht as _ ->.
Qed.

Lemma role_loop_unknown (t : string) (us : list utterance) (st : role_state) :
  Forall (fun u => speaker u <> t -> speaker u = "UNKNOWN"%string ->
                   speaker_role u = Some "Unknown"%string)
         (role_loop t st us).
Proof.
  revert st. induction us as [|u r IH]; intros st; simpl; [constructor|].
  pose proof (role_step_core t st u) as [Hc _].
  pose proof (role_step_unknown t st u) as Ht.
  destruct (role_step t st u) as [st' u']. simpl in *.
  constructor; [|apply IH].
  intros Hne Hsp. unfold core in Hc. injection Hc as _ _ _ Hs.
  rewrite Hs in Hsp, Hne. specialize (Ht Hne Hsp). now injection Ht as _ ->.
Qed.

(** The loop reads only the speaker of an entry and overwrites its role. *)
Lemma role_step_set_role (t : string) (st : role_state) (u : utterance)
    (r : string) :
  role_step t st (set_role u r) = role_step t st u.
Proof. reflexivity. Qed.

Lemma role_step_relabel (t t' : string) (st st' : role_state) (u : utterance) :
  role_step t st (snd (role_step t' st' u)) = role_step t st u.
Proof.
  unfold role_step at 2. destruct st' as [c' m'].
  destruct (String.eqb (speaker u) t'); [apply role_step_set_role|].
  destruct (negb (String.eqb (speaker u) "UNKNOWN"));
    apply role_step_set_role.
Qed.

Lemma role_loop_relabel (t t' : string) (us : list utterance)
    (st st' : role_state) :
  role_loop t st (role_loop t' st' us) = role_loop t st us.
Proof.
  revert st st'. induction us as [|u r IH]; intros st st'; simpl;
    [reflexivity|].
  pose proof (role_step_relabel t t' st st' u) as Hstep.
  destruct (role_step t' st' u) as [st1 u1]. simpl in *.
  rewrite Hstep.
  destruct (role_step t st u) as [st2 u2].
  now rewrite IH.
Qed.

Lemma teacher_label_assign_roles (us : list utterance) :
  teacher_label (assign_roles us) = teacher_label us.
Proof.
  unfold teacher_label at 1. unfold speaker_talk_time.
  rewrite (fold_talk_core (assign_roles us) us); [reflexivity|].
  apply role_loop_core.
Qed.

Lemma assign_roles_speakers (us : list utterance) :
  map speaker (assign_roles us) = map speaker us.
Proof.
  pose proof (role_loop_core (teacher_label us) us (1%nat, [])) as H.
  fold (assign_roles us) in H.
  apply (f_equal (map snd)) in H. rewrite !map_map in H. exact H.
Qed.

(** C5 fails on the program: a transcript whose only segment matches no turn
    is labelled "Teacher", not "Unknown". *)
Theorem C5_unknown_labelled_teacher :
  process [mkSegment 0 5 (codepoints "hi")] []
  = [ mkUtterance 0 5 (codepoints "hi") "UNKNOWN" (Some "Teacher"%string) ].
Proof. reflexivity. Qed.

(** What the loop does guarantee for the sentinel: "Unknown" whenever the
    teacher label is another speaker. *)
Lemma unknown_role_when_not_teacher (us : list utterance) :
  teacher_label us <> "UNKNOWN"%string ->
  Forall (fun u => speaker u = "UNKNOWN"%string ->
                   speaker_role u = Some "Unknown"%string)
         (assign_roles us).
Proof.
  intros Hne.
  pose proof (role_loop_unknown (teacher_label us) us (1%nat, [])) as HF.
  fold (assign_roles us) in HF.
  revert HF. apply Forall_impl. intros u Hu Hsp.
  apply Hu; [congruence|exact Hsp].
Qed.

(** C8: assigning roles to the output of role assignment reproduces that
    output, hence the same labels. *)
Theorem C8_assign_roles_idempotent (us : list utterance) :
  assign_roles (assign_roles us) = assign_roles us
  /\ map speaker_role (assign_roles (assign_roles us))
     = map speaker_role (assign_roles us).
Proof.
  assert (H : assign_roles (assign_roles us) = assign_roles us).
  { unfold assign_roles at 1. rewrite teacher_label_assign_roles.
    unfold assign_roles. apply role_loop_relabel. }
  split; [exact H|now rewrite H].
Qed.

(** C9: the i-th output has the start, end, text and speaker of the i-th
    input; the count is unchanged and every output carries a role. *)
Theorem C9_roles_only_augment (us : list utterance) :
  List.length (assign_roles us) = List.length us
  /\ map core (assign_roles us) = map core us
  /\ (forall i, option_map core (nth_error (assign_roles us) i)
                = option_map core (nth_error us i))
  /\ Forall (fun u => speaker_role u <> None) (assign_roles us).
Proof.
  assert (Hc : map core (assign_roles us) = map core us)
    by apply role_loop_core.
  split; [|split; [|split]].
  - rewrite <- (length_map core), Hc. apply length_map.
  - exact Hc.
  - intros i. rewrite <- !nth_error_map. now rewrite Hc.
  - apply role_loop_labelled.
Qed.

(** C10: on a non-empty transcript the teacher label is the speaker of some
    utterance, so some output utterance has the role "Teacher". *)
Theorem C10_nonempty_has_teacher (us : list utterance) :
  us <> [] ->
  In (teacher_label us) (map speaker us)
  /\ exists u, In u (assign_roles us)
               /\ speaker u = teacher_label us
               /\ speaker_role u = Some "Teacher"%string.
Proof.
  intros Hne. pose proof (teacher_label_In us Hne) as Hin.
  split; [exact Hin|].
  rewrite <- assign_roles_speakers in Hin.
  apply in_map_iff in Hin. destruct Hin as (u & Hsp & Hu).
  exists u. split; [exact Hu|]. split; [exact Hsp|].
  pose proof (role_loop_teacher (teacher_label us) us (1%nat, [])) as HF.
  fold (assign_roles us) in HF.
  rewrite Forall_forall in HF. now apply HF.
Qed.

Lemma C10_nonempty_has_teacher_witness :
  In (teacher_label [mkUtterance 0 5 [] "UNKNOWN" None])
     (map speaker [mkUtterance 0 5 [] "UNKNOWN" None])
  /\ exists u, In u (assign_roles [mkUtterance 0 5 [] "UNKNOWN" None])
               /\ speaker u = teacher_label [mkUtterance 0 5 [] "UNKNOWN" None]
               /\ speaker_role u = Some "Teacher"%string.
Proof.
  apply (C10_nonempty_has_teacher [mkUtterance 0 5 [] "UNKNOWN" None]).
  discriminate.
Defined.

(** ** Student numbering *)

Lemma index_of_lt (s : string) (l : list string) (k : nat) :
  index_of s l = Some k -> (k < List.length l)%nat.
Proof.
  revert k. induction l as [|x r IH]; intros k; simpl; [discriminate|].
  destruct (String.eqb x s).
  - intros [= <-]. lia.
  - destruct (index_of s r) as [j|]; simpl; [|discriminate].
    intros [= <-]. specialize (IH j eq_refl). lia.
Qed.

Lemma index_of_app_last (s x : string) (l : list string) :
  index_of s (l ++ [x])
  = match index_of s l with
    | Some k => Some k
    | None => if String.eqb x s then Some (List.length l) else None
    end.
Proof.
  induction l as [|y r IH]; simpl.
  - now destruct (String.eqb x s).
  - destruct (String.eqb y s); [reflexivity|].
    rewrite IH. destruct (index_of s r); simpl; [reflexivity|].
    now destruct (String.eqb x s).
Qed.

(** Positions already given are kept when the list of seen speakers grows. *)
Lemma first_seen_from_keeps (l seen : list string) (s : string) (k : nat) :
  index_of s seen = Some k -> index_of s (first_seen_from seen l) = Some k.
Proof.
  revert seen. induction l as [|x r IH]; intros seen H; simpl; [exact H|].
  destruct (index_of x seen); apply IH; [exact H|].
  rewrite index_of_app_last. now rewrite H.
Qed.

Lemma numbering_ok_init : numbering_ok [] (1%nat, []).
Proof. split; reflexivity. Qed.

Lemma numbering_ok_new (seen : list string) (c : nat) (m : Dict.t string)
    (x : string) :
  numbering_ok seen (c, m) -> index_of x seen = None ->
  numbering_ok (seen ++ [x]) (S c, Dict.set m x (student_label c)).
Proof.
  intros [Hc Hm] Hx. simpl in *. split; simpl.
  - rewrite length_app. simpl. lia.
  - intros s. rewrite DictFacts.get_set, index_of_app_last, Hm.
    destruct (String.eqb x s) eqn:E.
    + apply String.eqb_eq in E. subst s. rewrite Hx. simpl. now rewrite Hc.
    + now destruct (index_of s seen).
Qed.

(** One iteration on a student speaker: the state after it, and the label
    written, in terms of the speakers seen. *)
Lemma role_step_student (t : string) (seen : list string) (st : role_state)
    (u : utterance) :
  numbering_ok seen st -> is_student t (speaker u) = true ->
  let seen' := first_seen_from seen [speaker u] in
  numbering_ok seen' (fst (role_step t st u))
  /\ exists k, index_of (speaker u) seen' = Some k
               /\ snd (role_step t st u) = set_role u (student_label (S k)).
Proof.
  intros Hok Hstu. destruct st as [c m].
  unfold is_student in Hstu. apply andb_true_iff in Hstu.
  destruct Hstu as [Ht Hu].
  unfold role_step. rewrite negb_true_iff in Ht. rewrite Ht, Hu.
  pose proof Hok as [Hc Hm]. simpl in Hc, Hm.
  unfold Dict.mem. simpl. rewrite Hm.
  destruct (index_of (speaker u) seen) as [k|] eqn:Ei; simpl.
  - split; [exact Hok|]. exists k. split; [exact Ei|].
    unfold subscript. now rewrite Hm, Ei.
  - pose proof (numbering_ok_new seen c m (speaker u) Hok Ei) as Hok'.
    split; [exact Hok'|]. exists (List.length seen). split.
    + rewrite index_of_app_last, Ei. now rewrite String.eqb_refl.
    + unfold subscript. rewrite DictFacts.get_set_same. now rewrite Hc.
Qed.

(** The subscript [speaker_map[original_speaker]] of line 111 always finds
    its key. *)
Lemma role_step_subscript_defined (t : string) (c : nat) (m : Dict.t string)
    (u : utterance) :
  let st' := if negb (Dict.mem m (speaker u))
             then (S c, Dict.set m (speaker u) (student_label c))
             else (c, m) in
  Dict.get (snd st') (speaker u) <> None.
Proof.
  unfold Dict.mem. simpl.
  destruct (Dict.get m (speaker u)) eqn:E; simpl.
  - rewrite E. discriminate.
  - rewrite DictFacts.get_set_same. discriminate.
Qed.

Lemma role_step_not_student (t : string) (st : role_state) (u : utterance) :
  is_student t (speaker u) = false -> fst (role_step t st u) = st.
Proof.
  unfold is_student, role_step. destruct st as [c m].
  destruct (String.eqb (speaker u) t); [reflexivity|].
  destruct (String.eqb (speaker u) "UNKNOWN"); [reflexivity|discriminate].
Qed.

Lemma role_loop_students (t : string) (us : list utterance)
    (seen : list string) (st : role_state) (i : nat) (u : utterance) :
  numbering_ok seen st ->
  nth_error (role_loop t st us) i = Some u ->
  is_student t (speaker u) = true ->
  exists k,
    index_of (speaker u)
             (first_seen_from seen (filter (is_student t) (map speaker us)))
    = Some k
    /\ speaker_role u = Some (student_label (S k)).
Proof.
  revert seen st i.
  induction us as [|u0 r IH]; intros seen st i Hok Hnth Hstu.
  - destruct i; discriminate.
  - simpl in Hnth.
    pose proof (role_step_core t st u0) as [Hcore _].
    destruct (is_student t (speaker u0)) eqn:E0.
    + pose proof (role_step_student t seen st u0 Hok E0) as Hstep.
      cbv zeta in Hstep. destruct Hstep as (Hok' & k & Hk & Hrole).
      destruct (role_step t st u0) as [st' u0'] eqn:Estep.
      simpl in Hok', Hrole, Hcore.
      cbn [map filter]. rewrite E0. cbn [first_seen_from] in *.
      destruct i as [|i]; simpl in Hnth.
      * injection Hnth as <-. exists k. split.
        -- rewrite Hrole. simpl.
           destruct (index_of (speaker u0) seen);
             now apply first_seen_from_keeps.
        -- now rewrite Hrole.
      * destruct (index_of (speaker u0) seen);
          now apply (IH _ st' i).
    + pose proof (role_step_not_student t st u0 E0) as Hst.
      destruct (role_step t st u0) as [st' u0'] eqn:Estep.
      simpl in Hst, Hcore. subst st'.
      cbn [map filter]. rewrite E0.
      destruct i as [|i]; simpl in Hnth.
      * injection Hnth as <-.
        unfold core in Hcore. injection Hcore as _ _ _ Hs.
        rewrite Hs in Hstu. congruence.
      * now apply (IH seen st i).
Qed.

(** The speaker of the first student utterance heads the list. *)
Lemma students_first (us pre post : list utterance) (u : utterance) :
  us = pre ++ u :: post ->
  Forall (fun p => is_student (teacher_label us) (speaker p) = false) pre ->
  is_student (teacher_label us) (speaker u) = true ->
  index_of (speaker u) (students us) = Some 0%nat.
Proof.
  intros Hus Hpre Hu. unfold students.
  set (t := teacher_label us) in *. clearbody t. subst us.
  rewrite map_app, filter_app.
  assert (Hnil : filter (is_student t) (map speaker pre) = []).
  { induction Hpre as [|p r Hp _ IH]; simpl; [reflexivity|].
    now rewrite Hp. }
  rewrite Hnil. cbn [app map filter]. rewrite Hu. cbn [first_seen_from index_of].
  apply first_seen_from_keeps. simpl. now rewrite String.eqb_refl.
Qed.

Lemma is_student_true_iff (t s : string) :
  is_student t s = true <-> s <> t /\ s <> "UNKNOWN"%string.
Proof.
  unfold is_student.
  rewrite andb_true_iff, !negb_true_iff, !String.eqb_neq. reflexivity.
Qed.

Lemma is_student_false_iff (t s : string) :
  is_student t s = false <-> s = t \/ s = "UNKNOWN"%string.
Proof.
  unfold is_student.
  rewrite andb_false_iff, !negb_false_iff, !String.eqb_eq. reflexivity.
Qed.

Example ex_class_roles :
  map speaker_role (assign_roles ex_class)
  = [ Some "Student 1"; Some "Teacher"; Some "Student 2"; Some "Student 1" ]%string.
Proof. reflexivity. Qed.

Example ex_student_labels :
  map student_label [1; 2; 10; 123]%nat
  = [ "Student 1"; "Student 2"; "Student 10"; "Student 123" ]%string.
Proof. reflexivity. Qed.

(** * Further properties of the matcher and the resolver *)

Ltac case_ltb :=
  repeat match goal with
  | |- context [Qltb ?a ?b] => destruct (Qltb a b) eqn:?
  end; qltb.

Ltac case_overlap ss se t :=
  unfold overlap_duration, py_max, py_min; cbv zeta;
  destruct (Qltb ss (turn_start t)) eqn:?;
  destruct (Qltb (turn_end t) se) eqn:?;
  case_ltb.

Lemma overlap_positive_iff (ss se : Q) (t : turn) :
  0 < overlap_duration ss se t
  <-> ss < se /\ turn_start t < turn_end t
      /\ ss < turn_end t /\ turn_start t < se.
Proof.
  case_overlap ss se t; split; intros H; repeat split; lra.
Qed.

(** X1: a turn has positive overlap with a span exactly when both intervals
    are non-degenerate and each starts before the other ends; intervals that
    only touch do not overlap. *)
Theorem X1_overlap_positive_iff (ss se : Q) (t : turn) :
  0 < overlap_duration ss se t
  <-> ss < se /\ turn_start t < turn_end t
      /\ ss < turn_end t /\ turn_start t < se.
Proof. apply overlap_positive_iff. Qed.


(** X3: a segment whose end is not after its start is attributed to
    "UNKNOWN" whatever the turns are. *)
Theorem X3_degenerate_segment_unknown (turns : list turn) (s : segment) :
  seg_end s <= seg_start s ->
  overlap_durations (seg_start s) (seg_end s) turns = []
  /\ speaker (fuse_segment turns s) = "UNKNOWN"%string.
Proof.
  intros Hdeg.
  assert (E : overlap_durations (seg_start s) (seg_end s) turns = []).
  { apply overlap_durations_nil_iff. intros t _ Hpos.
    apply overlap_positive_iff in Hpos. lra. }
  split; [exact E|]. simpl. now rewrite E.
Qed.

Lemma X3_degenerate_segment_unknown_witness :
  overlap_durations 5 5 ex_turns = []
  /\ speaker (fuse_segment ex_turns (mkSegment 5 5 (codepoints "uh")))
     = "UNKNOWN"%string.
Proof.
  apply (X3_degenerate_segment_unknown ex_turns
           (mkSegment 5 5 (codepoints "uh"))).
  vm_compute. discriminate.
Defined.

(** X4: when some turn overlaps the segment and every overlapping turn
    belongs to one speaker, that speaker is the fused speaker. *)
Theorem X4_single_overlapping_speaker (turns : list turn) (s : segment)
    (a : string) :
  (exists t, In t turns
             /\ 0 < overlap_duration (seg_start s) (seg_end s) t) ->
  (forall t, In t turns ->
             0 < overlap_duration (seg_start s) (seg_end s) t ->
             turn_speaker t = a) ->
  speaker (fuse_segment turns s) = a.
Proof.
  intros (t0 & Hin0 & Hpos0) Hall.
  destruct (dominant_speaker_turn (seg_start s) (seg_end s) turns)
    as (t & Hin & Ht & Hpos).
  - intros E.
    apply (proj1 (overlap_durations_nil_iff _ _ _) E t0 Hin0 Hpos0).
  - simpl. rewrite <- Ht. now apply Hall.
Qed.

Lemma X4_single_overlapping_speaker_witness :
  speaker (fuse_segment ex_turns (mkSegment 5 10 [])) = "B"%string.
Proof.
  apply (X4_single_overlapping_speaker ex_turns (mkSegment 5 10 []) "B").
  - exists (mkTurn 5 10 "B"). split; [simpl; tauto|]. reflexivity.
  - intros t Hin. unfold ex_turns in Hin. simpl in Hin.
    destruct Hin as [<-|[<-|[<-|[]]]]; vm_compute;
      intros H; try reflexivity; discriminate H.
Defined.

(** ** Ties *)

(** The winner of [max_from] is either the initial best, which then bounds
    everything, or the first entry that beats all the entries before it. *)
Lemma max_from_first (rest : Dict.t Q) (best : string) (bestv : Q) :
  (max_from best bestv rest = best
   /\ forall k' v', In (k', v') rest -> v' <= bestv)
  \/ (exists pre v post,
        rest = pre ++ (max_from best bestv rest, v) :: post
        /\ bestv < v
        /\ (forall k' v', In (k', v') pre -> v' < v)
        /\ (forall k' v', In (k', v') post -> v' <= v)).
Proof.
  revert best bestv.
  induction rest as [|[k v] r IH]; intros best bestv; simpl.
  - left. split; [reflexivity|]. intros ? ? [].
  - destruct (Qltb bestv v) eqn:E; qltb.
    + right. destruct (IH k v) as [[Hk Hall]|(pre & w & post & Hr & Hlt & Hp & Hq)].
      * exists [], v, r. rewrite Hk. simpl.
        split; [reflexivity|]. split; [exact E|].
        split; [intros ? ? []|exact Hall].
      * exists ((k, v) :: pre), w, post. simpl.
        split; [now rewrite <- Hr|]. split; [lra|].
        split; [|exact Hq].
        intros k' v' [[= <- <-]|Hin]; [exact Hlt|now apply (Hp k')].
    + destruct (IH best bestv)
        as [[Hk Hall]|(pre & w & post & Hr & Hlt & Hp & Hq)].
      * left. split; [exact Hk|].
        intros k' v' [[= <- <-]|Hin]; [exact E|now apply (Hall k')].
      * right. exists ((k, v) :: pre), w, post. simpl.
        split; [now rewrite <- Hr|]. split; [exact Hlt|].
        split; [|exact Hq].
        intros k' v' [[= <- <-]|Hin]; [lra|now apply (Hp k')].
Qed.

(** [max(d, key=d.get)] is the first key, in insertion order, among those of
    maximal value. *)
Lemma max_key_first (d : Dict.t Q) :
  d <> [] ->
  exists pre v post,
    d = pre ++ (max_key_or_unknown d, v) :: post
    /\ (forall k' v', In (k', v') pre -> v' < v)
    /\ (forall k' v', In (k', v') post -> v' <= v).
Proof.
  destruct d as [|[k v] r]; [congruence|]. intros _. simpl.
  destruct (max_from_first r k v)
    as [[Hk Hall]|(pre & w & post & Hr & Hlt & Hp & Hq)].
  - exists [], v, r. rewrite Hk. simpl.
    split; [reflexivity|]. split; [intros ? ? []|exact Hall].
  - exists ((k, v) :: pre), w, post. simpl.
    split; [now rewrite <- Hr|]. split; [|exact Hq].
    intros k' v' [[= <- <-]|Hin]; [exact Hlt|now apply (Hp k')].
Qed.

Lemma mem_index_of {V : Type} (d : Dict.t V) (k : string) :
  Dict.mem d k
  = match index_of k (Dict.keys d) with Some _ => true | None => false end.
Proof.
  unfold Dict.mem.
  induction d as [|[k' v] r IH]; simpl; [reflexivity|].
  destruct (String.eqb k' k); [reflexivity|].
  rewrite IH. now destruct (index_of k (Dict.keys r)).
Qed.

Lemma keys_set_first_seen {V : Type} (d : Dict.t V) (k : string) (v : V)
    (l : list string) :
  first_seen_from (Dict.keys (Dict.set d k v)) l
  = first_seen_from (Dict.keys d) (k :: l).
Proof.
  rewrite DictFacts.keys_set, mem_index_of. simpl.
  now destruct (index_of k (Dict.keys d)).
Qed.

(** The keys of the talk-time mapping are the speakers in order of first
    utterance. *)
Lemma fold_talk_keys (us : list utterance) (d : Dict.t Q) :
  Dict.keys (fold_left talk_time_step us d)
  = first_seen_from (Dict.keys d) (map speaker us).
Proof.
  revert d. induction us as [|u r IH]; intros d; [reflexivity|].
  cbn [fold_left map]. rewrite IH. unfold talk_time_step. cbv zeta.
  apply keys_set_first_seen.
Qed.

(** The keys of the overlap mapping are the speakers of the overlapping
    turns in order of first such turn. *)
Lemma fold_step_keys (ss se : Q) (turns : list turn) (d : Dict.t Q) :
  Dict.keys (fold_left (speaker_times_step ss se) turns d)
  = first_seen_from (Dict.keys d) (map turn_speaker (overlapping ss se turns)).
Proof.
  revert d. induction turns as [|t r IH]; intros d; [reflexivity|].
  cbn [fold_left]. rewrite IH. unfold overlapping. cbn [filter].
  unfold speaker_times_step. cbv zeta.
  destruct (Qltb 0 (overlap_duration ss se t)); [|reflexivity].
  cbn [map]. apply keys_set_first_seen.
Qed.

Lemma In_keys_entry {V : Type} (d : Dict.t V) (k : string) :
  In k (Dict.keys d) -> exists v, In (k, v) d.
Proof.
  unfold Dict.keys. intros H. apply in_map_iff in H.
  destruct H as ([k' v] & Hk & Hin). simpl in Hk. subst. now exists v.
Qed.

(** Splitting a dictionary at the winner splits its keys, with the stored
    values compared through [Dict.get]. *)
Lemma max_key_first_keys (d : Dict.t Q) :
  d <> [] -> NoDup (Dict.keys d) ->
  exists l1 l2 w,
    Dict.keys d = l1 ++ max_key_or_unknown d :: l2
    /\ Dict.get d (max_key_or_unknown d) = Some w
    /\ (forall k, In k l1 -> exists v, Dict.get d k = Some v /\ v < w)
    /\ (forall k, In k l2 -> exists v, Dict.get d k = Some v /\ v <= w).
Proof.
  intros Hne Hnd.
  destruct (max_key_first d Hne) as (pre & w & post & Hd & Hp & Hq).
  exists (Dict.keys pre), (Dict.keys post), w.
  assert (Hin : forall k v, In (k, v) pre \/ In (k, v) post
                            \/ (max_key_or_unknown d, w) = (k, v) ->
                            Dict.get d k = Some v).
  { intros k v H. apply DictFacts.In_get; [exact Hnd|].
    rewrite Hd. apply in_or_app. simpl. tauto. }
  split; [|split; [|split]].
  - rewrite Hd at 1. unfold Dict.keys. now rewrite map_app.
  - apply Hin. right. right. reflexivity.
  - intros k Hk. destruct (In_keys_entry pre k Hk) as (v & Hv).
    exists v. split; [apply Hin; tauto|now apply (Hp k)].
  - intros k Hk. destruct (In_keys_entry post k Hk) as (v & Hv).
    exists v. split; [apply Hin; tauto|now apply (Hq k)].
Qed.

(** A tie between two turns goes to the one visited first. *)
Example ex_tie_first_turn :
  speaker (fuse_segment [mkTurn 0 5 "A"; mkTurn 5 10 "B"] (mkSegment 0 10 []))
  = "A"%string
  /\ speaker (fuse_segment [mkTurn 5 10 "B"; mkTurn 0 5 "A"]
                           (mkSegment 0 10 []))
     = "B"%string.
Proof. split; reflexivity. Qed.

(** * Further properties of the role assignment *)

Lemma student_label_inj (a b : nat) :
  student_label a = student_label b -> a = b.
Proof.
  unfold student_label. cbn [append]. intros H.
  injection H as H.
  apply DecimalNat.Unsigned.to_uint_inj.
  pose proof (NilEmpty.usu (Nat.to_uint a)) as Ha.
  pose proof (NilEmpty.usu (Nat.to_uint b)) as Hb.
  rewrite H in Ha. congruence.
Qed.

Lemma student_label_not_fixed (k : nat) :
  student_label k <> "Teacher"%string /\ student_label k <> "Unknown"%string.
Proof. unfold student_label. cbn [append]. split; discriminate. Qed.

Lemma index_of_nth_error (s : string) (l : list string) (k : nat) :
  index_of s l = Some k -> nth_error l k = Some s.
Proof.
  revert k. induction l as [|x r IH]; intros k; simpl; [discriminate|].
  destruct (String.eqb x s) eqn:E.
  - apply String.eqb_eq in E. intros [= <-]. now subst.
  - destruct (index_of s r) as [j|]; simpl; [|discriminate].
    intros [= <-]. simpl. now apply IH.
Qed.

Lemma index_of_None (s : string) (l : list string) :
  index_of s l = None <-> ~ In s l.
Proof.
  induction l as [|x r IH]; simpl; [tauto|].
  destruct (String.eqb x s) eqn:E.
  - apply String.eqb_eq in E. split; [discriminate|]. tauto.
  - apply String.eqb_neq in E.
    destruct (index_of s r); simpl.
    + split; [discriminate|]. intros H. exfalso. apply H. right.
      destruct (in_dec string_dec s r) as [|Hn]; [assumption|].
      apply IH in Hn. discriminate.
    + split; [|reflexivity]. intros _ [Hx|Hr]; [contradiction|].
      now apply (proj1 IH).
Qed.

(** What one output entry carries, by the kind of its speaker. *)
Lemma assign_roles_cases (us : list utterance) (u : utterance) :
  In u (assign_roles us) ->
  (speaker u = teacher_label us /\ speaker_role u = Some "Teacher"%string)
  \/ (speaker u <> teacher_label us /\ speaker u = "UNKNOWN"%string
      /\ speaker_role u = Some "Unknown"%string)
  \/ (speaker u <> teacher_label us /\ speaker u <> "UNKNOWN"%string
      /\ exists k, index_of (speaker u) (students us) = Some k
                   /\ speaker_role u = Some (student_label (S k))).
Proof.
  intros Hin.
  pose proof (role_loop_teacher (teacher_label us) us (1%nat, [])) as HT.
  pose proof (role_loop_unknown (teacher_label us) us (1%nat, [])) as HU.
  fold (assign_roles us) in HT, HU. rewrite Forall_forall in HT, HU.
  destruct (string_dec (speaker u) (teacher_label us)) as [Et|Et].
  - left. split; [exact Et|now apply HT].
  - right. destruct (string_dec (speaker u) "UNKNOWN") as [Eu|Eu].
    + left. split; [exact Et|]. split; [exact Eu|now apply HU].
    + right. split; [exact Et|]. split; [exact Eu|].
      apply In_nth_error in Hin. destruct Hin as (i & Hi).
      apply (role_loop_students (teacher_label us) us [] (1%nat, []) i u
               numbering_ok_init Hi).
      now apply is_student_true_iff.
Qed.

(** X9: the role written tells the kind of speaker, and conversely: an
    output entry is "Teacher" exactly when its speaker is the teacher label,
    "Unknown" exactly when its speaker is "UNKNOWN" and the teacher label is
    not, and "Student k" for some k otherwise. *)
Theorem X9_roles_classify_speakers (us : list utterance) (u : utterance) :
  In u (assign_roles us) ->
  (speaker_role u = Some "Teacher"%string <-> speaker u = teacher_label us)
  /\ (speaker_role u = Some "Unknown"%string
      <-> speaker u = "UNKNOWN"%string /\ teacher_label us <> "UNKNOWN"%string)
  /\ ((exists k, speaker_role u = Some (student_label k))
      <-> speaker u <> teacher_label us /\ speaker u <> "UNKNOWN"%string).
Proof.
  intros Hin.
  assert (Hlab : forall j, Some (student_label j) <> Some "Teacher"%string
                           /\ Some (student_label j) <> Some "Unknown"%string).
  { intros j. destruct (student_label_not_fixed j). split; congruence. }
  destruct (assign_roles_cases us u Hin)
    as [(Et & Hr)|[(Et & Eu & Hr)|(Et & Eu & k & _ & Hr)]];
    rewrite Hr; (split; [|split]).
  - split; auto.
  - split; [discriminate|]. intros [Hu Hne]. congruence.
  - split; [|tauto]. intros (j & Hj). symmetry in Hj.
    now apply Hlab in Hj.
  - split; [discriminate|contradiction].
  - split; [|reflexivity]. intros _. split; [exact Eu|congruence].
  - split; [|tauto]. intros (j & Hj). symmetry in Hj.
    now apply Hlab in Hj.
  - split; [|contradiction]. intros Hj. now apply Hlab in Hj.
  - split; [|tauto]. intros Hj. now apply Hlab in Hj.
  - split; [tauto|]. intros _. now exists (S k).
Qed.

Lemma X9_roles_classify_speakers_witness :
  (Some "Student 2"%string = Some "Teacher"%string
   <-> "S2"%string = teacher_label ex_class)
  /\ (Some "Student 2"%string = Some "Unknown"%string
      <-> "S2"%string = "UNKNOWN"%string
          /\ teacher_label ex_class <> "UNKNOWN"%string)
  /\ ((exists k, Some "Student 2"%string = Some (student_label k))
      <-> "S2"%string <> teacher_label ex_class
          /\ "S2"%string <> "UNKNOWN"%string).
Proof.
  apply (X9_roles_classify_speakers ex_class
           (mkUtterance 9 10 [] "S2" (Some "Student 2"%string))).
  vm_compute. tauto.
Defined.

Lemma first_seen_from_In (l seen : list string) (s : string) :
  In s (first_seen_from seen l) <-> In s seen \/ In s l.
Proof.
  revert seen. induction l as [|x r IH]; intros seen; simpl; [tauto|].
  destruct (index_of x seen) as [k|] eqn:E; rewrite IH.
  - apply index_of_nth_error, nth_error_In in E.
    split; [tauto|]. intros [H|[<-|H]]; tauto.
  - rewrite in_app_iff. simpl. tauto.
Qed.

Lemma first_seen_from_NoDup (l seen : list string) :
  NoDup seen -> NoDup (first_seen_from seen l).
Proof.
  revert seen. induction l as [|x r IH]; intros seen Hnd; simpl; [exact Hnd|].
  destruct (index_of x seen) eqn:E; apply IH; [exact Hnd|].
  apply index_of_None in E.
  apply (Permutation_NoDup (Permutation_cons_append seen x)).
  now constructor.
Qed.

Lemma NoDup_index_of (l : list string) (k : nat) (s : string) :
  NoDup l -> nth_error l k = Some s -> index_of s l = Some k.
Proof.
  revert k. induction l as [|x r IH]; intros k Hnd Hk.
  - destruct k; discriminate.
  - inversion Hnd as [|? ? Hx Hr]; subst. simpl.
    destruct k as [|k]; simpl in Hk.
    + injection Hk as ->. now rewrite String.eqb_refl.
    + destruct (String.eqb x s) eqn:E.
      * apply String.eqb_eq in E. subst x.
        apply nth_error_In in Hk. contradiction.
      * now rewrite (IH k Hr Hk).
Qed.

(** The students of a transcript: each once, and exactly the speakers that
    are neither the teacher nor the sentinel. *)
Lemma students_spec (us : list utterance) :
  NoDup (students us)
  /\ forall s, In s (students us)
               <-> In s (map speaker us) /\ s <> teacher_label us
                   /\ s <> "UNKNOWN"%string.
Proof.
  unfold students. split.
  - apply first_seen_from_NoDup. constructor.
  - intros s. rewrite first_seen_from_In, filter_In, is_student_true_iff.
    simpl. tauto.
Qed.

(** X10: student labels tell student speakers apart: two output entries
    whose speakers are neither the teacher nor "UNKNOWN" carry the same
    role exactly when they have the same speaker. *)
Theorem X10_student_labels_distinct (us : list utterance) (u u' : utterance) :
  In u (assign_roles us) -> In u' (assign_roles us) ->
  speaker u <> teacher_label us -> speaker u <> "UNKNOWN"%string ->
  speaker u' <> teacher_label us -> speaker u' <> "UNKNOWN"%string ->
  (speaker_role u = speaker_role u' <-> speaker u = speaker u').
Proof.
  intros Hin Hin' Ht Hu Ht' Hu'.
  destruct (assign_roles_cases us u Hin)
    as [(E & _)|[(_ & E & _)|(_ & _ & k & Hk & Hr)]]; try contradiction.
  destruct (assign_roles_cases us u' Hin')
    as [(E & _)|[(_ & E & _)|(_ & _ & k' & Hk' & Hr')]]; try contradiction.
  rewrite Hr, Hr'. split.
  - intros H.
    assert (H1 : student_label (S k) = student_label (S k')) by congruence.
    apply student_label_inj in H1. injection H1 as <-.
    apply index_of_nth_error in Hk, Hk'. congruence.
  - intros H. rewrite H in Hk. congruence.
Qed.

Lemma X10_student_labels_distinct_witness :
  Some "Student 1"%string = Some "Student 2"%string
  <-> "S1"%string = "S2"%string.
Proof.
  apply (X10_student_labels_distinct ex_class
           (mkUtterance 0 1 [] "S1" (Some "Student 1"%string))
           (mkUtterance 9 10 [] "S2" (Some "Student 2"%string)));
    vm_compute; try tauto; discriminate.
Defined.

(** X11: the student numbers in use are exactly 1 .. n, where n is the
    number of distinct speakers that are neither the teacher nor "UNKNOWN":
    none is skipped and none is larger. *)
Theorem X11_student_numbers_contiguous (us : list utterance) :
  (NoDup (students us)
   /\ forall s, In s (students us)
                <-> In s (map speaker us) /\ s <> teacher_label us
                    /\ s <> "UNKNOWN"%string)
  /\ forall k,
       (exists u, In u (assign_roles us)
                  /\ speaker_role u = Some (student_label k))
       <-> (1 <= k <= List.length (students us))%nat.
Proof.
  split; [apply students_spec|].
  destruct (students_spec us) as [Hnd Hmem].
  intros k. split.
  - intros (u & Hin & Hr).
    destruct (assign_roles_cases us u Hin)
      as [(_ & Hr')|[(_ & _ & Hr')|(_ & _ & j & Hj & Hr')]];
      rewrite Hr' in Hr.
    + destruct (student_label_not_fixed k). congruence.
    + destruct (student_label_not_fixed k). congruence.
    + assert (H1 : student_label (S j) = student_label k) by congruence.
      apply student_label_inj in H1. subst k.
      apply index_of_lt in Hj. lia.
  - intros Hk.
    destruct (nth_error (students us) (k - 1)) as [s|] eqn:Es.
    2:{ apply nth_error_None in Es. lia. }
    pose proof (nth_error_In _ _ Es) as Hs.
    apply Hmem in Hs. destruct Hs as (Hsp & Ht & Hu).
    rewrite <- assign_roles_speakers in Hsp.
    apply in_map_iff in Hsp. destruct Hsp as (u & Hus & Hin).
    exists u. split; [exact Hin|].
    destruct (assign_roles_cases us u Hin)
      as [(E & _)|[(_ & E & _)|(_ & _ & j & Hj & Hr)]];
      try congruence.
    rewrite Hus in Hj. rewrite (NoDup_index_of _ _ _ Hnd Es) in Hj.
    injection Hj as <-. rewrite Hr. do 2 f_equal. lia.
Qed.

(** * Further properties of the pipeline *)

(** X12: end to end, the response transcript has one entry per transcription
    segment, in order; the i-th entry carries the i-th segment's start and
    end, its trimmed text, the speaker resolved for that segment alone, and
    some role. *)
Theorem X12_process_entries (segments : list segment) (turns : list turn) :
  List.length (process segments turns) = List.length segments
  /\ map core (process segments turns)
     = map (fun s => (seg_start s, seg_end s, strip (seg_text s),
                      dominant_speaker
                        (overlap_durations (seg_start s) (seg_end s) turns)))
           segments
  /\ Forall (fun u => speaker_role u <> None) (process segments turns).
Proof.
  unfold process.
  assert (Hc : map core (assign_roles (fuse segments turns))
               = map core (fuse segments turns)) by apply role_loop_core.
  split; [|split].
  - rewrite <- (length_map core), Hc, length_map, fuse_map.
    apply length_map.
  - rewrite Hc, fuse_map, map_map. reflexivity.
  - apply role_loop_labelled.
Qed.

Lemma single_speaker_teacher (us : list utterance) (a : string) :
  (forall u, In u us -> speaker u = a) ->
  Forall (fun u => speaker u = a /\ speaker_role u = Some "Teacher"%string)
         (assign_roles us).
Proof.
  intros Hall. apply Forall_forall. intros u Hin.
  assert (Hsp : speaker u = a).
  { assert (H : In (speaker u) (map speaker (assign_roles us)))
      by now apply in_map.
    rewrite assign_roles_speakers in H. apply in_map_iff in H.
    destruct H as (u0 & <- & Hu0). now apply Hall. }
  split; [exact Hsp|].
  assert (Hne : us <> []).
  { intros ->. destruct Hin. }
  pose proof (teacher_label_In us Hne) as Ht.
  apply in_map_iff in Ht. destruct Ht as (u1 & Hu1 & Hin1).
  pose proof (role_loop_teacher (teacher_label us) us (1%nat, [])) as HF.
  fold (assign_roles us) in HF. rewrite Forall_forall in HF.
  apply HF; [exact Hin|]. rewrite <- Hu1, (Hall u1 Hin1). exact Hsp.
Qed.

(** X13: a transcript with a single speaker is all "Teacher": if every
    fused utterance has the same speaker, whoever it is, every output entry
    has the role "Teacher" and there is no student. *)
Theorem X13_single_speaker_all_teacher (us : list utterance) (a : string) :
  (forall u, In u us -> speaker u = a) ->
  Forall (fun u => speaker u = a /\ speaker_role u = Some "Teacher"%string)
         (assign_roles us)
  /\ students us = [].
Proof.
  intros Hall. split; [now apply single_speaker_teacher|].
  destruct (students_spec us) as [_ Hmem].
  destruct (students us) as [|s r] eqn:E; [reflexivity|].
  exfalso.
  destruct (proj1 (Hmem s) (or_introl eq_refl)) as (Hin & Hnt & _).
  apply Hnt. apply in_map_iff in Hin. destruct Hin as (u & <- & Hu).
  assert (Hne : us <> []) by (intros ->; destruct Hu).
  pose proof (teacher_label_In us Hne) as Ht.
  apply in_map_iff in Ht. destruct Ht as (u1 & Hu1 & Hin1).
  rewrite <- Hu1, (Hall u Hu), (Hall u1 Hin1). reflexivity.
Qed.

Lemma X13_single_speaker_all_teacher_witness :
  Forall (fun u => speaker u = "B"%string
                   /\ speaker_role u = Some "Teacher"%string)
         (assign_roles [mkUtterance 0 1 [] "B" None;
                        mkUtterance 1 2 [] "B" None])
  /\ students [mkUtterance 0 1 [] "B" None; mkUtterance 1 2 [] "B" None] = [].
Proof.
  apply (X13_single_speaker_all_teacher
           [mkUtterance 0 1 [] "B" None; mkUtterance 1 2 [] "B" None] "B").
  intros u [<-|[<-|[]]]; reflexivity.
Defined.

(** X14: when no segment overlaps any turn - in particular when the
    diarization has no turn at all - every entry of the response has speaker
    "UNKNOWN" and role "Teacher"; none is "Unknown". *)
Theorem X14_no_overlap_all_teacher (segments : list segment)
    (turns : list turn) :
  (forall s t, In s segments -> In t turns ->
               ~ 0 < overlap_duration (seg_start s) (seg_end s) t) ->
  Forall (fun u => speaker u = "UNKNOWN"%string
                   /\ speaker_role u = Some "Teacher"%string)
         (process segments turns).
Proof.
  intros Hno. unfold process. apply single_speaker_teacher.
  intros u Hin. rewrite fuse_map in Hin. apply in_map_iff in Hin.
  destruct Hin as (s & <- & Hs). simpl.
  assert (E : overlap_durations (seg_start s) (seg_end s) turns = []).
  { apply overlap_durations_nil_iff. intros t Ht. now apply Hno. }
  now rewrite E.
Qed.

Lemma X14_no_overlap_all_teacher_witness :
  Forall (fun u => speaker u = "UNKNOWN"%string
                   /\ speaker_role u = Some "Teacher"%string)
         (process ex_segments []).
Proof.
  apply (X14_no_overlap_all_teacher ex_segments []).
  intros s t _ [].
Defined.

Lemma fold_step_overlapping (ss se : Q) (turns : list turn) (d : Dict.t Q) :
  fold_left (speaker_times_step ss se) (overlapping ss se turns) d
  = fold_left (speaker_times_step ss se) turns d.
Proof.
  revert d. induction turns as [|t r IH]; intros d; [reflexivity|].
  unfold overlapping in *. cbn [filter fold_left].
  destruct (Qltb 0 (overlap_duration ss se t)) eqn:E.
  - cbn [fold_left]. apply IH.
  - rewrite IH. unfold speaker_times_step at 3. cbv zeta. now rewrite E.
Qed.

(** X15: turns that do not overlap a segment play no part in its fusion:
    dropping them from the diarization leaves the overlap mapping and the
    fused utterance unchanged. *)
Theorem X15_non_overlapping_turns_ignored (turns : list turn) (s : segment) :
  overlap_durations (seg_start s) (seg_end s)
    (overlapping (seg_start s) (seg_end s) turns)
  = overlap_durations (seg_start s) (seg_end s) turns
  /\ fuse_segment (overlapping (seg_start s) (seg_end s) turns) s
     = fuse_segment turns s.
Proof.
  assert (E : overlap_durations (seg_start s) (seg_end s)
                (overlapping (seg_start s) (seg_end s) turns)
              = overlap_durations (seg_start s) (seg_end s) turns)
    by apply fold_step_overlapping.
  split; [exact E|]. unfold fuse_segment. now rewrite E.
Qed.

Lemma lstrip_fixed (s : list N) :
  match s with [] => True | c :: _ => is_space c = false end ->
  lstrip s = s.
Proof.
  destruct s as [|c r]; simpl; [reflexivity|]. now intros ->.
Qed.

Lemma lstrip_all_space (s : list N) :
  forallb is_space s = true -> lstrip s = [].
Proof.
  induction s as [|c r IH]; simpl; [reflexivity|].
  intros H. apply andb_true_iff in H. destruct H as [-> Hr]. now apply IH.
Qed.

Lemma strip_fixed (s : list N) :
  match s with [] => True | c :: _ => is_space c = false end ->
  match rev s with [] => True | c :: _ => is_space c = false end ->
  strip s = s.
Proof.
  intros Hh Hl. unfold strip, rstrip.
  rewrite (lstrip_fixed s Hh), (lstrip_fixed (rev s) Hl).
  apply rev_involutive.
Qed.

(** X16: the text of a fused utterance is already trimmed (trimming it again
    changes nothing) and is never longer than the segment's text; a segment
    whose text is only whitespace still gives an utterance, with empty text;
    a text with no surrounding whitespace is kept as it is. *)
Theorem X16_fused_text (turns : list turn) (s : segment) :
  strip (text (fuse_segment turns s)) = text (fuse_segment turns s)
  /\ (List.length (text (fuse_segment turns s))
      <= List.length (seg_text s))%nat
  /\ (forallb is_space (seg_text s) = true ->
      text (fuse_segment turns s) = [])
  /\ (match seg_text s with [] => True | c :: _ => is_space c = false end ->
      match rev (seg_text s) with
      | [] => True | c :: _ => is_space c = false end ->
      text (fuse_segment turns s) = seg_text s).
Proof.
  cbn [text fuse_segment].
  destruct (strip_spec (seg_text s)) as ((pre & post & Hs & _) & Hh & Hl).
  split; [|split; [|split]].
  - now apply strip_fixed.
  - rewrite Hs at 2. rewrite !length_app. lia.
  - intros Hall. unfold strip. now rewrite (lstrip_all_space _ Hall).
  - apply strip_fixed.
Qed.

Lemma X16_fused_text_witness :
  text (fuse_segment ex_turns (mkSegment 0 1 (codepoints "   "))) = [].
Proof.
  apply (X16_fused_text ex_turns (mkSegment 0 1 (codepoints "   "))).
  reflexivity.
Defined.

(** * The endpoint *)

Lemma get_remove {V : Type} (d : Dict.t V) (k k' : string) :
  Dict.get (Dict.remove d k) k'
  = if String.eqb k k' then None else Dict.get d k'.
Proof.
  induction d as [|[k0 v0] r IH]; simpl.
  - now destruct (String.eqb k k').
  - destruct (String.eqb k0 k) eqn:E.
    + apply String.eqb_eq in E. subst k0. rewrite IH.
      now destruct (String.eqb k k').
    + simpl. rewrite IH.
      destruct (String.eqb k0 k') eqn:E'; [|reflexivity].
      apply String.eqb_eq in E'. subst k0.
      now rewrite String.eqb_sym, E.
Qed.

(** After the [finally] clause the staging file is gone and every other
    path is as before. *)
Lemma cleanup_get (fs : file_system) (k : string) :
  Dict.get (cleanup fs) k
  = if String.eqb temp_path k then None else Dict.get fs k.
Proof.
  unfold cleanup, Dict.mem.
  destruct (Dict.get fs temp_path) eqn:E.
  - apply get_remove.
  - destruct (String.eqb temp_path k) eqn:Ek; [|reflexivity].
    apply String.eqb_eq in Ek. now subst k.
Qed.

Lemma try_process_status (p : model (list turn)) (w : model (list segment))
    (fs : file_system) :
  status (fst (try_process p w fs)) = 200%nat
  \/ status (fst (try_process p w fs)) = 500%nat.
Proof.
  unfold try_process.
  destruct (p fs temp_path) as [[e|turns] fs1]; [now right|].
  destruct (w fs1 temp_path) as [[e|segs] fs2]; [now right|now left].
Qed.

(** X17: the endpoint answers 400 exactly when the request has no "file"
    part or the part has an empty filename; it then leaves the disk as it
    was, whatever the models are. *)
Theorem X17_bad_request_iff (p : option (model (list turn)))
    (w : option (model (list segment))) (files : Dict.t upload)
    (fs : file_system) :
  (status (fst (process_audio_endpoint p w files fs)) = 400%nat
   <-> Dict.get files "file" = None
       \/ exists f, Dict.get files "file" = Some f
                    /\ filename f = ""%string)
  /\ (status (fst (process_audio_endpoint p w files fs)) = 400%nat ->
      snd (process_audio_endpoint p w files fs) = fs).
Proof.
  unfold process_audio_endpoint.
  destruct (Dict.get files "file") as [f|] eqn:Ef.
  2:{ split; [|reflexivity]. split; [now left|reflexivity]. }
  destruct (String.eqb (filename f) "") eqn:En.
  { apply String.eqb_eq in En.
    split; [|reflexivity]. split; [|reflexivity].
    intros _. right. now exists f. }
  apply String.eqb_neq in En.
  assert (Hok : ~ (Some f = None
                   \/ exists f', Some f = Some f' /\ filename f' = ""%string)).
  { intros [H|(f' & [= <-] & H)]; [discriminate|contradiction]. }
  assert (Hnot : forall (r : response) (fs' : file_system),
             status r <> 400%nat ->
             (status (fst (r, fs')) = 400%nat
              <-> Some f = None
                  \/ exists f', Some f = Some f' /\ filename f' = ""%string)
             /\ (status (fst (r, fs')) = 400%nat -> snd (r, fs') = fs)).
  { intros r fs' Hr. simpl. split; [split|]; tauto. }
  destruct p as [p'|], w as [w'|];
    [|apply Hnot; discriminate..].
  pose proof (try_process_status p' w'
                (Dict.set fs temp_path (content f))) as Hst.
  destruct (try_process p' w' (Dict.set fs temp_path (content f)))
    as [r fs2]. cbn [fst] in Hst.
  apply Hnot. destruct Hst as [-> | ->]; discriminate.
Qed.

Lemma X17_bad_request_iff_witness :
  snd (process_audio_endpoint (Some ex_pipeline) (Some ex_whisper)
         [("file"%string, mkUpload "" [1]%N)] ex_disk)
  = ex_disk.
Proof.
  apply (X17_bad_request_iff (Some ex_pipeline) (Some ex_whisper)
           [("file"%string, mkUpload "" [1]%N)] ex_disk).
  reflexivity.
Defined.

(** X18: when only a model is missing the endpoint answers 500 with the
    fixed message and does not write the staging file: the disk is as it
    was. *)
Theorem X18_model_missing (p : option (model (list turn)))
    (w : option (model (list segment))) (files : Dict.t upload)
    (fs : file_system) (f : upload) :
  Dict.get files "file" = Some f -> filename f <> ""%string ->
  p = None \/ w = None ->
  process_audio_endpoint p w files fs
  = (mkResponse
       (ErrorBody "A required model is not loaded. Check server logs.") 500,
     fs).
Proof.
  intros Hf Hn Hm. unfold process_audio_endpoint. rewrite Hf.
  apply String.eqb_neq in Hn. rewrite Hn.
  destruct Hm as [-> | ->]; [reflexivity|now destruct p].
Qed.

Lemma X18_model_missing_witness :
  process_audio_endpoint None (Some ex_whisper) ex_files ex_disk
  = (mkResponse
       (ErrorBody "A required model is not loaded. Check server logs.") 500,
     ex_disk).
Proof.
  apply (X18_model_missing None (Some ex_whisper) ex_files ex_disk
           (mkUpload "lesson.wav" [82; 73; 70; 70]%N)).
  - reflexivity.
  - discriminate.
  - now left.
Defined.


(** X21: a model that raises turns into a 500 answer carrying its message;
    when the diarization model raises the transcription model is not
    consulted: the answer is the same for every transcription model. *)
Theorem X21_model_failure (p : model (list turn)) (files : Dict.t upload)
    (fs : file_system) (f : upload) :
  Dict.get files "file" = Some f -> filename f <> ""%string ->
  let staged := Dict.set fs temp_path (content f) in
  let failed e :=
    mkResponse
      (ErrorBody ("An error occurred during processing: " ++ e)%string) 500 in
  (forall e fs1, p staged temp_path = (Raised e, fs1) ->
     forall w, process_audio_endpoint (Some p) (Some w) files fs
               = (failed e, cleanup fs1))
  /\ (forall turns fs1 w e fs2,
        p staged temp_path = (Returned turns, fs1) ->
        w fs1 temp_path = (Raised e, fs2) ->
        process_audio_endpoint (Some p) (Some w) files fs
        = (failed e, cleanup fs2)).
Proof.
  intros Hf Hn staged failed.
  apply String.eqb_neq in Hn.
  split.
  - intros e fs1 Hp w. unfold process_audio_endpoint, try_process.
    rewrite Hf, Hn. fold staged. now rewrite Hp.
  - intros turns fs1 w e fs2 Hp Hw.
    unfold process_audio_endpoint, try_process.
    rewrite Hf, Hn. fold staged. now rewrite Hp, Hw.
Qed.

Lemma X21_model_failure_witness :
  process_audio_endpoint (Some ex_broken_pipeline) (Some ex_whisper)
    ex_files ex_disk
  = (mkResponse
       (ErrorBody "An error occurred during processing: decode error") 500,
     [("notes.txt"%string, [1]%N)]).
Proof.
  assert (Hn : "lesson.wav"%string <> ""%string) by discriminate.
  exact (proj1 (X21_model_failure ex_broken_pipeline ex_files ex_disk
                  (mkUpload "lesson.wav" [82; 73; 70; 70]%N) eq_refl Hn)
               "decode error"%string _ eq_refl ex_whisper).
Defined.

Example ex_endpoint_ok :
  process_audio_endpoint (Some ex_pipeline) (Some ex_whisper) ex_files ex_disk
  = (mkResponse (TranscriptBody (process ex_segments ex_turns)) 200,
     [("notes.txt"%string, [1]%N)]).
Proof. reflexivity. Qed.

(** * Machine arithmetic: totals and the arg-max *)

Section RoundedFacts.
Variables add sub : Q -> Q -> Q.

Local Abbreviation r_talk_step := (Rounded.talk_time_step add sub).
Local Abbreviation r_talk_total := (Rounded.talk_total add sub).
Local Abbreviation r_teacher := (Rounded.teacher_label add sub).
Local Abbreviation r_od := (Rounded.overlap_duration sub).
Local Abbreviation r_step := (Rounded.speaker_times_step add sub).
Local Abbreviation r_contributes := (Rounded.contributes sub).
Local Abbreviation r_overlap_total := (Rounded.overlap_total add sub).

(** One dictionary update seen from a single key. *)
Lemma get_accumulate (d : Dict.t Q) (k s : string) (x : Q) :
  Dict.get (Dict.set d k (add (Dict.get_default d k 0) x)) s
  = if String.eqb k s
    then Some (add (match Dict.get d s with Some v => v | None => 0 end) x)
    else Dict.get d s.
Proof.
  rewrite DictFacts.get_set. unfold Dict.get_default.
  destruct (String.eqb k s) eqn:E; [|reflexivity].
  apply String.eqb_eq in E. now subst.
Qed.

(** An accumulation loop seen from a single key: the entry of [s] is absent
    until an item of [s] comes, and then holds the items of [s] added one
    after the other. *)
Lemma fold_skip {A : Type} (mine : A -> bool) (val : A -> Q) (l : list A)
    (x : Q) :
  existsb mine l = false ->
  fold_left (fun acc a => if mine a then add acc (val a) else acc) l x = x.
Proof.
  revert x. induction l as [|a r IH]; intros x H; [reflexivity|].
  cbn [existsb] in H. apply orb_false_iff in H. destruct H as [Ha Hr].
  cbn [fold_left]. rewrite Ha. now apply IH.
Qed.

Lemma fold_accumulate {A : Type} (key : A -> string) (val : A -> Q)
    (keep : A -> bool) (l : list A) (d : Dict.t Q) (s : string) :
  Dict.get
    (fold_left (fun d a =>
                  if keep a
                  then Dict.set d (key a)
                         (add (Dict.get_default d (key a) 0) (val a))
                  else d) l d) s
  = if existsb (fun a => keep a && String.eqb (key a) s) l
    then Some (fold_left
                 (fun acc a =>
                    if keep a && String.eqb (key a) s
                    then add acc (val a) else acc)
                 l (match Dict.get d s with Some v => v | None => 0 end))
    else Dict.get d s.
Proof.
  revert d. induction l as [|a r IH]; intros d; [reflexivity|].
  cbn [fold_left existsb]. rewrite IH.
  destruct (keep a); cbn [andb]; [|reflexivity].
  rewrite get_accumulate.
  destruct (String.eqb (key a) s); cbn [orb]; [|reflexivity].
  destruct (existsb (fun a0 => keep a0 && String.eqb (key a0) s) r) eqn:E;
    [reflexivity|].
  now rewrite (fold_skip (fun a0 => keep a0 && String.eqb (key a0) s) val r _ E).
Qed.

Lemma fold_accumulate_NoDup {A : Type} (key : A -> string) (val : A -> Q)
    (keep : A -> bool) (l : list A) (d : Dict.t Q) :
  NoDup (Dict.keys d) ->
  NoDup (Dict.keys
           (fold_left (fun d a =>
                         if keep a
                         then Dict.set d (key a)
                                (add (Dict.get_default d (key a) 0) (val a))
                         else d) l d)).
Proof.
  revert d. induction l as [|a r IH]; intros d Hnd; [exact Hnd|].
  cbn [fold_left]. apply IH.
  destruct (keep a); [now apply DictFacts.NoDup_keys_set|exact Hnd].
Qed.

Lemma fold_accumulate_keys {A : Type} (key : A -> string) (val : A -> Q)
    (keep : A -> bool) (l : list A) (d : Dict.t Q) :
  Dict.keys
    (fold_left (fun d a =>
                  if keep a
                  then Dict.set d (key a)
                         (add (Dict.get_default d (key a) 0) (val a))
                  else d) l d)
  = first_seen_from (Dict.keys d) (map key (filter keep l)).
Proof.
  revert d. induction l as [|a r IH]; intros d; [reflexivity|].
  cbn [fold_left filter]. rewrite IH.
  destruct (keep a); [|reflexivity].
  cbn [map]. apply keys_set_first_seen.
Qed.

(** ** Talk times *)

Lemma r_talk_time_as_loop (us : list utterance) (d : Dict.t Q) :
  fold_left r_talk_step us d
  = fold_left (fun d u =>
                 if true
                 then Dict.set d (speaker u)
                        (add (Dict.get_default d (speaker u) 0)
                             (sub (end_ u) (start u)))
                 else d) us d.
Proof. reflexivity. Qed.

Lemma existsb_speaker (us : list utterance) (s : string) :
  existsb (fun u => true && String.eqb (speaker u) s) us = true
  <-> In s (map speaker us).
Proof.
  rewrite existsb_exists, in_map_iff. split.
  - intros (u & Hin & H). apply String.eqb_eq in H. now exists u.
  - intros (u & H & Hin). exists u. split; [exact Hin|].
    now apply String.eqb_eq.
Qed.

(** What lines 93-97 store under a speaker. *)
Lemma r_talk_time_get (us : list utterance) (s : string) :
  (In s (map speaker us) ->
   Dict.get (Rounded.speaker_talk_time add sub us) s
   = Some (r_talk_total s us))
  /\ (~ In s (map speaker us) ->
      Dict.get (Rounded.speaker_talk_time add sub us) s = None).
Proof.
  unfold Rounded.speaker_talk_time. rewrite r_talk_time_as_loop.
  pose proof (fold_accumulate speaker
                (fun u => sub (end_ u) (start u)) (fun _ => true) us [] s)
    as H.
  rewrite H. clear H.
  pose proof (existsb_speaker us s) as Hex.
  destruct (existsb (fun u => true && String.eqb (speaker u) s) us).
  - split; [|intros Hn; exfalso; apply Hn; now apply Hex].
    intros _. reflexivity.
  - split; [|reflexivity].
    intros Hin. apply Hex in Hin. discriminate.
Qed.

Lemma r_talk_time_NoDup (us : list utterance) :
  NoDup (Dict.keys (Rounded.speaker_talk_time add sub us)).
Proof.
  apply (fold_accumulate_NoDup speaker (fun u => sub (end_ u) (start u))
           (fun _ => true) us []).
  constructor.
Qed.

Lemma r_talk_time_keys (us : list utterance) :
  Dict.keys (Rounded.speaker_talk_time add sub us)
  = first_seen_from [] (map speaker us).
Proof.
  etransitivity;
    [exact (fold_accumulate_keys speaker (fun u => sub (end_ u) (start u))
              (fun _ => true) us [])|].
  simpl. do 2 f_equal. induction us as [|u r IH]; simpl; congruence.
Qed.

Lemma r_talk_time_In (us : list utterance) (s : string) :
  In s (Dict.keys (Rounded.speaker_talk_time add sub us))
  <-> In s (map speaker us).
Proof.
  rewrite r_talk_time_keys, first_seen_from_In. simpl. tauto.
Qed.

Lemma r_talk_time_not_nil (us : list utterance) :
  us <> [] -> Rounded.speaker_talk_time add sub us <> [].
Proof.
  intros Hne E.
  destruct us as [|u r]; [congruence|].
  assert (H : In (speaker u) (Dict.keys (Rounded.speaker_talk_time add sub
                                           (u :: r)))).
  { apply r_talk_time_In. now left. }
  rewrite E in H. destruct H.
Qed.

Lemma r_teacher_In (us : list utterance) :
  us <> [] -> In (r_teacher us) (map speaker us).
Proof.
  intros Hne. apply r_talk_time_In.
  apply max_key_In. now apply r_talk_time_not_nil.
Qed.

(** No speaker's total exceeds the teacher's. *)
Lemma r_teacher_maximal (us : list utterance) (s : string) :
  In s (map speaker us) -> r_talk_total s us <= r_talk_total (r_teacher us) us.
Proof.
  intros Hin.
  assert (Hne : us <> []) by (intros ->; destruct Hin).
  pose proof (proj1 (r_talk_time_get us s) Hin) as Hs.
  pose proof (proj1 (r_talk_time_get us (r_teacher us)) (r_teacher_In us Hne))
    as Ht.
  destruct (max_key_maximal _ _ _ (r_talk_time_NoDup us) Hs) as (w & Hw & Hle).
  fold (r_teacher us) in Hw. rewrite Ht in Hw. now injection Hw as <-.
Qed.

(** A speaker whose total exceeds all the others is the teacher. *)
Lemma r_teacher_strict (us : list utterance) (a : string) :
  In a (map speaker us) ->
  (forall s, In s (map speaker us) -> s <> a ->
             r_talk_total s us < r_talk_total a us) ->
  r_teacher us = a.
Proof.
  intros Hin Hstrict.
  assert (Hne : us <> []) by (intros ->; destruct Hin).
  destruct (string_dec (r_teacher us) a) as [|Hd]; [assumption|].
  pose proof (r_teacher_maximal us a Hin) as Hle.
  specialize (Hstrict _ (r_teacher_In us Hne) Hd). lra.
Qed.

(** The teacher is the first, in order of first utterance, among the
    speakers of maximal total. *)
Lemma r_teacher_first (us : list utterance) :
  us <> [] ->
  exists l1 l2,
    first_seen_from [] (map speaker us) = l1 ++ r_teacher us :: l2
    /\ (forall s, In s l1 -> r_talk_total s us < r_talk_total (r_teacher us) us)
    /\ (forall s, In s l2 ->
                  r_talk_total s us <= r_talk_total (r_teacher us) us).
Proof.
  intros Hne.
  destruct (max_key_first_keys (Rounded.speaker_talk_time add sub us)
              (r_talk_time_not_nil us Hne) (r_talk_time_NoDup us))
    as (l1 & l2 & w & Hk & Hw & H1 & H2).
  fold (r_teacher us) in Hk, Hw.
  assert (Hval : forall s v,
             Dict.get (Rounded.speaker_talk_time add sub us) s = Some v ->
             v = r_talk_total s us).
  { intros s v Hs.
    assert (Hin : In s (map speaker us)).
    { apply r_talk_time_In. now apply DictFacts.get_In_keys in Hs. }
    rewrite (proj1 (r_talk_time_get us s) Hin) in Hs. congruence. }
  pose proof (Hval _ _ Hw) as ->.
  exists l1, l2. split; [|split].
  - now rewrite <- Hk, r_talk_time_keys.
  - intros s Hs. destruct (H1 s Hs) as (v & Hv & Hlt).
    now rewrite <- (Hval _ _ Hv).
  - intros s Hs. destruct (H2 s Hs) as (v & Hv & Hle).
    now rewrite <- (Hval _ _ Hv).
Qed.

(** ** Overlap totals *)

Lemma r_contributes_iff (ss se : Q) (s : string) (t : turn) :
  r_contributes ss se s t = true <-> turn_speaker t = s /\ 0 < r_od ss se t.
Proof.
  unfold Rounded.contributes.
  rewrite andb_true_iff, String.eqb_eq, Qltb_lt. tauto.
Qed.

Lemma existsb_r_contributes (ss se : Q) (s : string) (turns : list turn) :
  existsb (r_contributes ss se s) turns = true
  <-> exists t, In t turns /\ turn_speaker t = s /\ 0 < r_od ss se t.
Proof.
  rewrite existsb_exists. split; intros (t & Hin & H); exists t.
  - apply r_contributes_iff in H. tauto.
  - split; [exact Hin|]. now apply r_contributes_iff.
Qed.

(** What lines 74-81 store under a speaker. *)
Lemma r_overlap_get (ss se : Q) (turns : list turn) (s : string) :
  ((exists t, In t turns /\ turn_speaker t = s /\ 0 < r_od ss se t) ->
   Dict.get (Rounded.overlap_durations add sub ss se turns) s
   = Some (r_overlap_total ss se s turns))
  /\ (~ (exists t, In t turns /\ turn_speaker t = s /\ 0 < r_od ss se t) ->
      Dict.get (Rounded.overlap_durations add sub ss se turns) s = None).
Proof.
  pose proof (fold_accumulate turn_speaker (r_od ss se)
                (fun t => Qltb 0 (r_od ss se t)) turns [] s) as H.
  change (Dict.get (Rounded.overlap_durations add sub ss se turns) s
          = if existsb (r_contributes ss se s) turns
            then Some (r_overlap_total ss se s turns) else None) in H.
  rewrite H. clear H.
  pose proof (existsb_r_contributes ss se s turns) as Hex.
  destruct (existsb (r_contributes ss se s) turns).
  - split; [reflexivity|]. intros Hn. exfalso. apply Hn. now apply Hex.
  - split; [|reflexivity]. intros Hy. apply Hex in Hy. discriminate.
Qed.

Lemma r_overlap_NoDup (ss se : Q) (turns : list turn) :
  NoDup (Dict.keys (Rounded.overlap_durations add sub ss se turns)).
Proof.
  apply (fold_accumulate_NoDup turn_speaker (r_od ss se)
           (fun t => Qltb 0 (r_od ss se t)) turns []).
  constructor.
Qed.

Lemma r_overlap_keys (ss se : Q) (turns : list turn) :
  Dict.keys (Rounded.overlap_durations add sub ss se turns)
  = first_seen_from []
      (map turn_speaker (Rounded.overlapping sub ss se turns)).
Proof.
  exact (fold_accumulate_keys turn_speaker (r_od ss se)
           (fun t => Qltb 0 (r_od ss se t)) turns []).
Qed.

Lemma r_overlap_In (ss se : Q) (turns : list turn) (s : string) :
  In s (Dict.keys (Rounded.overlap_durations add sub ss se turns))
  <-> exists t, In t turns /\ turn_speaker t = s /\ 0 < r_od ss se t.
Proof.
  rewrite r_overlap_keys, first_seen_from_In, in_map_iff.
  unfold Rounded.overlapping. split.
  - intros [[]|(t & Hs & Hin)]. apply filter_In in Hin.
    exists t. rewrite <- Qltb_lt. tauto.
  - intros (t & Hin & Hs & Hpos). right. exists t.
    split; [exact Hs|]. apply filter_In. split; [exact Hin|].
    now apply Qltb_lt.
Qed.

Lemma r_overlap_nil_iff (ss se : Q) (turns : list turn) :
  Rounded.overlap_durations add sub ss se turns = []
  <-> forall t, In t turns -> ~ 0 < r_od ss se t.
Proof.
  split.
  - intros E t Hin Hpos.
    assert (H : In (turn_speaker t)
                   (Dict.keys (Rounded.overlap_durations add sub ss se turns))).
    { apply r_overlap_In. now exists t. }
    rewrite E in H. destruct H.
  - intros Hno.
    destruct (Rounded.overlap_durations add sub ss se turns)
      as [|[k v] r] eqn:E; [reflexivity|].
    exfalso.
    assert (H : In k (Dict.keys (Rounded.overlap_durations add sub ss se
                                   turns))).
    { rewrite E. now left. }
    apply r_overlap_In in H. destruct H as (t & Hin & _ & Hpos).
    now apply (Hno t).
Qed.

(** The speaker chosen on line 83, with its stored total. *)
Lemma r_dominant_entry (ss se : Q) (turns : list turn) :
  (exists t, In t turns /\ 0 < r_od ss se t) ->
  let d := Rounded.overlap_durations add sub ss se turns in
  (exists t, In t turns /\ turn_speaker t = max_key_or_unknown d
             /\ 0 < r_od ss se t)
  /\ Dict.get d (max_key_or_unknown d)
     = Some (r_overlap_total ss se (max_key_or_unknown d) turns).
Proof.
  intros (t0 & Hin0 & Hpos0) d.
  assert (Hne : d <> []).
  { intros E. apply (proj1 (r_overlap_nil_iff ss se turns) E t0 Hin0 Hpos0). }
  pose proof (max_key_In d Hne) as Hk. apply r_overlap_In in Hk.
  split; [exact Hk|]. now apply r_overlap_get.
Qed.

Lemma r_dominant_maximal (ss se : Q) (turns : list turn) (a : string) :
  (exists t, In t turns /\ turn_speaker t = a /\ 0 < r_od ss se t) ->
  r_overlap_total ss se a turns
  <= r_overlap_total ss se
       (max_key_or_unknown (Rounded.overlap_durations add sub ss se turns))
       turns.
Proof.
  intros Ha.
  pose proof (proj1 (r_overlap_get ss se turns a) Ha) as Hs.
  destruct (max_key_maximal _ _ _ (r_overlap_NoDup ss se turns) Hs)
    as (w & Hw & Hle).
  destruct Ha as (t & Hin & _ & Hpos).
  destruct (r_dominant_entry ss se turns) as [_ Hd]; [now exists t|].
  cbv zeta in Hd. rewrite Hd in Hw. now injection Hw as <-.
Qed.

Lemma r_dominant_first (ss se : Q) (turns : list turn) :
  (exists t, In t turns /\ 0 < r_od ss se t) ->
  let k := max_key_or_unknown (Rounded.overlap_durations add sub ss se turns) in
  exists l1 l2,
    first_seen_from []
      (map turn_speaker (Rounded.overlapping sub ss se turns))
    = l1 ++ k :: l2
    /\ (forall a, In a l1 ->
          r_overlap_total ss se a turns < r_overlap_total ss se k turns)
    /\ (forall a, In a l2 ->
          r_overlap_total ss se a turns <= r_overlap_total ss se k turns).
Proof.
  intros Hex k.
  destruct (r_dominant_entry ss se turns Hex) as [_ Hd]. cbv zeta in Hd.
  fold k in Hd.
  assert (Hne : Rounded.overlap_durations add sub ss se turns <> []).
  { destruct Hex as (t0 & Hin0 & Hpos0). intros E.
    apply (proj1 (r_overlap_nil_iff ss se turns) E t0 Hin0 Hpos0). }
  destruct (max_key_first_keys _ Hne (r_overlap_NoDup ss se turns))
    as (l1 & l2 & w & Hk & Hw & H1 & H2).
  fold k in Hk, Hw. rewrite Hd in Hw. injection Hw as <-.
  assert (Hval : forall a v,
             Dict.get (Rounded.overlap_durations add sub ss se turns) a
             = Some v -> v = r_overlap_total ss se a turns).
  { intros a v Ha.
    assert (Hin : In a (Dict.keys (Rounded.overlap_durations add sub ss se
                                     turns)))
      by now apply DictFacts.get_In_keys in Ha.
    apply r_overlap_In in Hin.
    rewrite (proj1 (r_overlap_get ss se turns a) Hin) in Ha. congruence. }
  exists l1, l2. split; [|split].
  - now rewrite <- Hk, r_overlap_keys.
  - intros a Ha. destruct (H1 a Ha) as (v & Hv & Hlt).
    now rewrite <- (Hval _ _ Hv).
  - intros a Ha. destruct (H2 a Ha) as (v & Hv & Hle).
    now rewrite <- (Hval _ _ Hv).
Qed.
End RoundedFacts.

(** * Roles, position by position *)

Lemma core_role_eq (u u' : utterance) (r : string) :
  core u' = core u -> speaker_role u' = Some r -> u' = set_role u r.
Proof.
  destruct u, u'. unfold core, set_role. simpl.
  intros [= -> -> -> ->] ->. reflexivity.
Qed.

(** The loop writes its i-th output from its i-th input. *)
Lemma role_loop_nth (t : string) (us : list utterance) (st : role_state)
    (i : nat) (u : utterance) :
  nth_error us i = Some u ->
  exists u', nth_error (role_loop t st us) i = Some u' /\ core u' = core u.
Proof.
  intros Hi.
  pose proof (role_loop_core t us st) as Hc.
  apply (f_equal (fun l => nth_error l i)) in Hc.
  rewrite !nth_error_map, Hi in Hc.
  destruct (nth_error (role_loop t st us) i) as [u'|]; [|discriminate].
  exists u'. split; [reflexivity|]. simpl in Hc. congruence.
Qed.

Lemma role_loop_nth_teacher (t : string) (us : list utterance)
    (st : role_state) (i : nat) (u : utterance) :
  nth_error us i = Some u -> speaker u = t ->
  nth_error (role_loop t st us) i = Some (set_role u "Teacher").
Proof.
  intros Hi Hsp.
  destruct (role_loop_nth t us st i u Hi) as (u' & Hu' & Hc).
  rewrite Hu'. f_equal. apply core_role_eq; [exact Hc|].
  pose proof (role_loop_teacher t us st) as HF.
  rewrite Forall_forall in HF. apply HF; [now apply nth_error_In in Hu'|].
  unfold core in Hc. injection Hc as _ _ _ Hs. congruence.
Qed.

Lemma first_seen_from_app (l1 l2 seen : list string) :
  first_seen_from seen (l1 ++ l2)
  = first_seen_from (first_seen_from seen l1) l2.
Proof.
  revert seen. induction l1 as [|x r IH]; intros seen; [reflexivity|].
  simpl. now destruct (index_of x seen).
Qed.

Lemma firstn_split_at {A : Type} (l1 l2 : list A) (x : A) :
  firstn (List.length l1) (l1 ++ x :: l2) = l1.
Proof.
  induction l1 as [|y r IH]; simpl; [reflexivity|]. now rewrite IH.
Qed.

(** The position of a student among all the students is the number it gets
    where it is met, less one. *)
Lemma students_index (t : string) (us : list utterance) (i : nat)
    (u : utterance) :
  nth_error us i = Some u -> is_student t (speaker u) = true ->
  index_of (speaker u)
           (first_seen_from [] (filter (is_student t) (map speaker us)))
  = Some (pred (student_number t i us (speaker u))).
Proof.
  intros Hi Hstu.
  destruct (nth_error_split us i Hi) as (l1 & l2 & -> & <-).
  unfold student_number, students_before.
  rewrite firstn_split_at.
  rewrite map_app, filter_app, first_seen_from_app.
  cbn [map filter]. rewrite Hstu. cbn [first_seen_from].
  set (prior := first_seen_from [] (filter (is_student t) (map speaker l1))).
  destruct (index_of (speaker u) prior) as [k|] eqn:E.
  - now apply first_seen_from_keeps.
  - apply first_seen_from_keeps.
    rewrite index_of_app_last, E. now rewrite String.eqb_refl.
Qed.

Lemma student_number_pos (t : string) (us : list utterance) (i : nat)
    (s : string) :
  student_number t i us s = S (pred (student_number t i us s)).
Proof.
  unfold student_number.
  now destruct (index_of s (students_before t i us)).
Qed.

(** What the loop writes for a student, for any teacher label. *)
Lemma role_loop_nth_student (t : string) (us : list utterance) (i : nat)
    (u : utterance) :
  nth_error us i = Some u -> is_student t (speaker u) = true ->
  nth_error (role_loop t (1%nat, []) us) i
  = Some (set_role u (student_label (student_number t i us (speaker u)))).
Proof.
  intros Hi Hstu.
  destruct (role_loop_nth t us (1%nat, []) i u Hi) as (u' & Hu' & Hc).
  rewrite Hu'. f_equal. apply core_role_eq; [exact Hc|].
  assert (Hs : speaker u' = speaker u).
  { unfold core in Hc. now injection Hc. }
  destruct (role_loop_students t us [] (1%nat, []) i u' numbering_ok_init Hu')
    as (k & Hk & Hr); [now rewrite Hs|].
  rewrite Hs, (students_index t us i u Hi Hstu) in Hk.
  injection Hk as <-. now rewrite Hr, <- student_number_pos.
Qed.

Lemma student_number_same (t : string) (us : list utterance) (i j : nat)
    (u u' : utterance) :
  nth_error us i = Some u -> nth_error us j = Some u' ->
  is_student t (speaker u) = true -> speaker u' = speaker u ->
  student_number t j us (speaker u') = student_number t i us (speaker u).
Proof.
  intros Hi Hj Hstu Hs.
  pose proof (students_index t us i u Hi Hstu) as H1.
  assert (Hstu' : is_student t (speaker u') = true) by now rewrite Hs.
  pose proof (students_index t us j u' Hj Hstu') as H2.
  rewrite Hs in H2. rewrite H1 in H2. injection H2 as H2.
  rewrite (student_number_pos t us i), (student_number_pos t us j).
  now rewrite Hs, H2.
Qed.

Lemma student_number_distinct (t : string) (us : list utterance) (i j : nat)
    (u u' : utterance) :
  nth_error us i = Some u -> nth_error us j = Some u' ->
  is_student t (speaker u) = true -> is_student t (speaker u') = true ->
  speaker u' <> speaker u ->
  student_number t j us (speaker u') <> student_number t i us (speaker u).
Proof.
  intros Hi Hj Hstu Hstu' Hne Heq.
  pose proof (students_index t us i u Hi Hstu) as H1.
  pose proof (students_index t us j u' Hj Hstu') as H2.
  rewrite Heq in H2.
  apply index_of_nth_error in H1, H2. congruence.
Qed.

Lemma student_number_first (t : string) (us : list utterance) (i : nat)
    (s : string) :
  (forall j p, (j < i)%nat -> nth_error us j = Some p ->
               speaker p = t \/ speaker p = "UNKNOWN"%string) ->
  student_number t i us s = 1%nat.
Proof.
  intros Hbefore. unfold student_number, students_before.
  assert (E : filter (is_student t) (map speaker (firstn i us)) = []).
  { assert (H : forall p, In p (firstn i us) -> is_student t (speaker p) = false).
    { intros p Hp. apply In_nth_error in Hp. destruct Hp as (j & Hj).
      assert (Hlt : (j < i)%nat).
      { assert (Hl : (j < List.length (firstn i us))%nat)
          by (apply nth_error_Some; congruence).
        rewrite length_firstn in Hl. lia. }
      apply is_student_false_iff. apply (Hbefore j p Hlt).
      rewrite nth_error_firstn in Hj.
      apply Nat.ltb_lt in Hlt. now rewrite Hlt in Hj. }
    induction (firstn i us) as [|p r IH]; [reflexivity|].
    simpl. rewrite (H p (or_introl eq_refl)). apply IH.
    intros q Hq. apply H. now right. }
  rewrite E. reflexivity.
Qed.

(** * The first model is the exact instance *)

Lemma exact_instance :
  (forall us, Rounded.speaker_talk_time Qplus Qminus us = speaker_talk_time us)
  /\ (forall us, Rounded.teacher_label Qplus Qminus us = teacher_label us)
  /\ (forall us, Rounded.assign_roles Qplus Qminus us = assign_roles us)
  /\ (forall ss se turns,
        Rounded.overlap_durations Qplus Qminus ss se turns
        = overlap_durations ss se turns)
  /\ (forall segments turns,
        Rounded.process Qplus Qminus segments turns = process segments turns).
Proof. repeat split. Qed.


(** * Teacher and students *)



(** With the machine's operations the two totals below are both 0.7, and the
    first speaker, "B", is the teacher; with exact operations "A" is. *)
Example ex_rounding_teacher :
  Rounded.teacher_label Binary64.add Binary64.sub ex_rounding = "B"%string
  /\ Rounded.talk_total Binary64.add Binary64.sub "A" ex_rounding
     == Rounded.talk_total Binary64.add Binary64.sub "B" ex_rounding
  /\ map speaker_role
         (Rounded.assign_roles Binary64.add Binary64.sub ex_rounding)
     = [ Some "Teacher"; Some "Student 1"; Some "Teacher" ]%string
  /\ teacher_label ex_rounding = "A"%string.
Proof. vm_compute. repeat split. Qed.

(** C6: for any behaviour of the two float operations, every utterance whose
    speaker is the teacher label is given the role "Teacher" at its
    position; this includes the sentinel: when "UNKNOWN" occurs and its
    computed total exceeds every other speaker's, the teacher label is
    "UNKNOWN" and every utterance of "UNKNOWN" is labelled "Teacher", not
    "Unknown". *)
Theorem C6_teacher_speaker_labelled (add sub : Q -> Q -> Q)
    (us : list utterance) :
  (forall i u,
      nth_error us i = Some u ->
      speaker u = Rounded.teacher_label add sub us ->
      nth_error (Rounded.assign_roles add sub us) i
      = Some (set_role u "Teacher"))
  /\ (In "UNKNOWN"%string (map speaker us) ->
      (forall s, In s (map speaker us) -> s <> "UNKNOWN"%string ->
                 Rounded.talk_total add sub s us
                 < Rounded.talk_total add sub "UNKNOWN" us) ->
      Rounded.teacher_label add sub us = "UNKNOWN"%string
      /\ forall i u,
           nth_error us i = Some u -> speaker u = "UNKNOWN"%string ->
           nth_error (Rounded.assign_roles add sub us) i
           = Some (set_role u "Teacher")
           /\ nth_error (Rounded.assign_roles add sub us) i
              <> Some (set_role u "Unknown")).
Proof.
  split.
  - intros i u Hi Hsp. now apply role_loop_nth_teacher.
  - intros Hin Hstrict.
    pose proof (r_teacher_strict add sub us _ Hin Hstrict) as Ht.
    split; [exact Ht|]. intros i u Hi Hsp.
    assert (H : nth_error (Rounded.assign_roles add sub us) i
                = Some (set_role u "Teacher")).
    { apply role_loop_nth_teacher; [exact Hi|congruence]. }
    split; [exact H|]. rewrite H. discriminate.
Qed.

Lemma C6_teacher_speaker_labelled_witness :
  Rounded.teacher_label Qplus Qminus ex_unmatched = "UNKNOWN"%string
  /\ forall i u,
       nth_error ex_unmatched i = Some u -> speaker u = "UNKNOWN"%string ->
       nth_error (Rounded.assign_roles Qplus Qminus ex_unmatched) i
       = Some (set_role u "Teacher")
       /\ nth_error (Rounded.assign_roles Qplus Qminus ex_unmatched) i
          <> Some (set_role u "Unknown").
Proof.
  apply (C6_teacher_speaker_labelled Qplus Qminus ex_unmatched).
  - simpl. now left.
  - intros s Hin Hne. simpl in Hin.
    destruct Hin as [<-|[<-|[]]]; [congruence|vm_compute; reflexivity].
Defined.

(** C7: walking the utterances in order, an utterance whose speaker is
    neither the teacher nor "UNKNOWN" is labelled "Student n", n written in
    decimal, where n is decided at its position: if its speaker is among the
    students met before, n is that speaker's number (the label is reused);
    otherwise n is one more than the number of distinct students met before,
    so the first student met gets "Student 1" and each new one the next
    integer.  Two utterances of one speaker carry the same label and two
    different students carry different labels.  This holds whichever
    speaker line 99 made the teacher, hence for any behaviour of the float
    operations. *)
Theorem C7_student_numbering (add sub : Q -> Q -> Q) (us : list utterance)
    (i : nat) (u : utterance) :
  nth_error us i = Some u ->
  speaker u <> Rounded.teacher_label add sub us ->
  speaker u <> "UNKNOWN"%string ->
  nth_error (Rounded.assign_roles add sub us) i
  = Some (set_role u
            ("Student "
             ++ NilEmpty.string_of_uint
                  (Nat.to_uint
                     (match index_of (speaker u)
                              (students_before
                                 (Rounded.teacher_label add sub us) i us) with
                      | Some k => S k
                      | None =>
                          S (List.length
                               (students_before
                                  (Rounded.teacher_label add sub us) i us))
                      end))))
  /\ ((forall j p, (j < i)%nat -> nth_error us j = Some p ->
                   speaker p = Rounded.teacher_label add sub us
                   \/ speaker p = "UNKNOWN"%string) ->
      nth_error (Rounded.assign_roles add sub us) i
      = Some (set_role u "Student 1"))
  /\ (forall j u', nth_error us j = Some u' -> speaker u' = speaker u ->
        exists r,
          nth_error (Rounded.assign_roles add sub us) i = Some (set_role u r)
          /\ nth_error (Rounded.assign_roles add sub us) j
             = Some (set_role u' r))
  /\ (forall j u', nth_error us j = Some u' ->
        speaker u' <> Rounded.teacher_label add sub us ->
        speaker u' <> "UNKNOWN"%string ->
        speaker u' <> speaker u ->
        exists r r',
          nth_error (Rounded.assign_roles add sub us) i = Some (set_role u r)
          /\ nth_error (Rounded.assign_roles add sub us) j
             = Some (set_role u' r')
          /\ r <> r').
Proof.
  intros Hi Hnt Hnu. unfold Rounded.assign_roles.
  remember (Rounded.teacher_label add sub us) as t eqn:Et. clear Et.
  assert (Hstu : is_student t (speaker u) = true)
    by now apply is_student_true_iff.
  pose proof (role_loop_nth_student t us i u Hi Hstu) as Hrole.
  split; [exact Hrole|]. split; [|split].
  - intros Hbefore. rewrite Hrole.
    now rewrite (student_number_first t us i (speaker u) Hbefore).
  - intros j u' Hj Hs.
    assert (Hstu' : is_student t (speaker u') = true) by now rewrite Hs.
    pose proof (role_loop_nth_student t us j u' Hj Hstu') as Hrole'.
    exists (student_label (student_number t i us (speaker u))).
    split; [exact Hrole|].
    now rewrite Hrole', (student_number_same t us i j u u' Hi Hj Hstu Hs).
  - intros j u' Hj Hnt' Hnu' Hne.
    assert (Hstu' : is_student t (speaker u') = true)
      by now apply is_student_true_iff.
    pose proof (role_loop_nth_student t us j u' Hj Hstu') as Hrole'.
    exists (student_label (student_number t i us (speaker u))),
           (student_label (student_number t j us (speaker u'))).
    split; [exact Hrole|]. split; [exact Hrole'|].
    intros Heq. apply student_label_inj in Heq.
    symmetry in Heq.
    now apply (student_number_distinct t us i j u u' Hi Hj Hstu Hstu' Hne).
Qed.

Lemma C7_student_numbering_witness :
  nth_error (Rounded.assign_roles Qplus Qminus ex_class) 2
  = Some (mkUtterance 9 10 [] "S2" (Some "Student 2"%string)).
Proof.
  assert (H1 : "S2"%string <> Rounded.teacher_label Qplus Qminus ex_class)
    by (vm_compute; discriminate).
  assert (H2 : "S2"%string <> "UNKNOWN"%string) by discriminate.
  exact (proj1 (C7_student_numbering Qplus Qminus ex_class 2
                  (mkUtterance 9 10 [] "S2" None) eq_refl H1 H2)).
Defined.

(** * The dominant speaker with machine arithmetic *)

(** X5: for any behaviour of the two float operations, a speaker with an
    overlapping turn has, as its entry, its positive overlaps added up in
    the order visited; no such speaker's computed total exceeds that of the
    fused speaker; and a speaker whose computed total exceeds that of every
    other speaker with an overlapping turn is the fused speaker. *)
Theorem X5_dominant_speaker_maximal (add sub : Q -> Q -> Q)
    (turns : list turn) (s : segment) :
  (forall a,
      (exists t, In t turns /\ turn_speaker t = a
                 /\ 0 < Rounded.overlap_duration sub (seg_start s) (seg_end s) t) ->
      Dict.get (Rounded.overlap_durations add sub (seg_start s) (seg_end s)
                  turns) a
      = Some (Rounded.overlap_total add sub (seg_start s) (seg_end s) a turns)
      /\ Rounded.overlap_total add sub (seg_start s) (seg_end s) a turns
         <= Rounded.overlap_total add sub (seg_start s) (seg_end s)
              (speaker (Rounded.fuse_segment add sub turns s)) turns)
  /\ (forall a,
        (exists t, In t turns /\ turn_speaker t = a
                   /\ 0 < Rounded.overlap_duration sub (seg_start s)
                            (seg_end s) t) ->
        (forall b, b <> a ->
           (exists t, In t turns /\ turn_speaker t = b
                      /\ 0 < Rounded.overlap_duration sub (seg_start s)
                               (seg_end s) t) ->
           Rounded.overlap_total add sub (seg_start s) (seg_end s) b turns
           < Rounded.overlap_total add sub (seg_start s) (seg_end s) a turns) ->
        speaker (Rounded.fuse_segment add sub turns s) = a).
Proof.
  cbn [speaker Rounded.fuse_segment].
  split.
  - intros a Ha. split; [now apply r_overlap_get|].
    now apply r_dominant_maximal.
  - intros a Ha Hstrict.
    set (k := max_key_or_unknown
                (Rounded.overlap_durations add sub (seg_start s) (seg_end s)
                   turns)).
    destruct (string_dec k a) as [|Hne]; [assumption|].
    pose proof (r_dominant_maximal add sub _ _ turns a Ha) as Hle.
    fold k in Hle.
    assert (Hk : exists t, In t turns /\ turn_speaker t = k
                           /\ 0 < Rounded.overlap_duration sub (seg_start s)
                                    (seg_end s) t).
    { destruct Ha as (t & Hin & _ & Hpos).
      apply (r_dominant_entry add sub (seg_start s) (seg_end s) turns).
      now exists t. }
    specialize (Hstrict k Hne Hk). lra.
Qed.

Lemma X5_dominant_speaker_maximal_witness :
  Dict.get (Rounded.overlap_durations Qplus Qminus (19#2) 12 ex_turns) "A"
  = Some (Rounded.overlap_total Qplus Qminus (19#2) 12 "A" ex_turns)
  /\ Rounded.overlap_total Qplus Qminus (19#2) 12 "A" ex_turns
     <= Rounded.overlap_total Qplus Qminus (19#2) 12
          (speaker (Rounded.fuse_segment Qplus Qminus ex_turns
                      (mkSegment (19#2) 12 []))) ex_turns.
Proof.
  apply (X5_dominant_speaker_maximal Qplus Qminus ex_turns
           (mkSegment (19#2) 12 []) ).
  exists (mkTurn (21#2) 12 "A").
  split; [simpl; tauto|]. split; reflexivity.
Defined.

(** With the machine's operations the two overlap totals below are both 0.4
    and the speaker of the first overlapping turn, "B", wins; with exact
    operations "A" does. *)
Example ex_rounding_dominant :
  speaker (Rounded.fuse_segment Binary64.add Binary64.sub ex_rounding_turns
             (mkSegment 0 (Binary64.lit (8#10)) []))
  = "B"%string
  /\ speaker (fuse_segment ex_rounding_turns
                (mkSegment 0 (Binary64.lit (8#10)) []))
     = "A"%string.
Proof. vm_compute. split; reflexivity. Qed.

Lemma Permutation_overlapping_turn (sub : Q -> Q -> Q) (ss se : Q)
    (turns turns' : list turn) (a : string) :
  Permutation turns turns' ->
  (exists t, In t turns /\ turn_speaker t = a
             /\ 0 < Rounded.overlap_duration sub ss se t) ->
  exists t, In t turns' /\ turn_speaker t = a
            /\ 0 < Rounded.overlap_duration sub ss se t.
Proof.
  intros Hp (t & Hin & H). exists t. split; [|exact H].
  now apply (Permutation_in _ Hp).
Qed.

(** X6: the order in which the diarization turns are visited does not
    change which speakers get an entry in the overlap mapping, whatever the
    float operations do; in particular the mapping is empty, and the segment
    "UNKNOWN", under one order exactly when it is under the other. *)
Theorem X6_overlap_entries_order_independent (add sub : Q -> Q -> Q)
    (ss se : Q) (turns turns' : list turn) :
  Permutation turns turns' ->
  (forall a,
      Dict.mem (Rounded.overlap_durations add sub ss se turns) a
      = Dict.mem (Rounded.overlap_durations add sub ss se turns') a)
  /\ (Rounded.overlap_durations add sub ss se turns = []
      <-> Rounded.overlap_durations add sub ss se turns' = []).
Proof.
  intros Hp. split.
  - intros a.
    assert (Hmem : forall l,
               Dict.mem (Rounded.overlap_durations add sub ss se l) a = true
               <-> exists t, In t l /\ turn_speaker t = a
                             /\ 0 < Rounded.overlap_duration sub ss se t).
    { intros l. rewrite <- (r_overlap_In add sub ss se l a).
      unfold Dict.mem. split.
      - destruct (Dict.get (Rounded.overlap_durations add sub ss se l) a)
          eqn:E; [|discriminate].
        intros _. now apply DictFacts.get_In_keys in E.
      - intros Hin.
        destruct (Dict.get (Rounded.overlap_durations add sub ss se l) a)
          eqn:E; [reflexivity|].
        apply DictFacts.get_None_keys in E. contradiction. }
    destruct (Dict.mem (Rounded.overlap_durations add sub ss se turns) a)
      eqn:E1,
      (Dict.mem (Rounded.overlap_durations add sub ss se turns') a) eqn:E2;
      try reflexivity; exfalso.
    + apply Hmem in E1.
      apply (Permutation_overlapping_turn sub ss se _ _ a Hp) in E1.
      apply Hmem in E1. congruence.
    + apply Hmem in E2.
      apply (Permutation_overlapping_turn sub ss se _ _ a
               (Permutation_sym Hp)) in E2.
      apply Hmem in E2. congruence.
  - rewrite !r_overlap_nil_iff. split; intros H t Hin.
    + apply H. now apply (Permutation_in _ (Permutation_sym Hp)).
    + apply H. now apply (Permutation_in _ Hp).
Qed.

Lemma X6_overlap_entries_order_independent_witness :
  Rounded.overlap_durations Qplus Qminus 20 21
    [mkTurn 0 4 "A"; mkTurn 4 9 "B"] = []
  <-> Rounded.overlap_durations Qplus Qminus 20 21
        [mkTurn 4 9 "B"; mkTurn 0 4 "A"] = [].
Proof.
  apply (X6_overlap_entries_order_independent Qplus Qminus 20 21
           [mkTurn 0 4 "A"; mkTurn 4 9 "B"] [mkTurn 4 9 "B"; mkTurn 0 4 "A"]).
  apply perm_swap.
Defined.

(** X7: among the speakers of maximal computed talk time the teacher is the
    one whose first utterance comes first: listing the speakers in order of
    first utterance, every speaker before the teacher has a strictly smaller
    computed total and every speaker after it has no larger one, whatever
    the float operations do. *)
Theorem X7_teacher_first_among_maximal (add sub : Q -> Q -> Q)
    (us : list utterance) :
  us <> [] ->
  exists l1 l2,
    first_seen_from [] (map speaker us)
    = l1 ++ Rounded.teacher_label add sub us :: l2
    /\ (forall s, In s l1 ->
          Rounded.talk_total add sub s us
          < Rounded.talk_total add sub (Rounded.teacher_label add sub us) us)
    /\ (forall s, In s l2 ->
          Rounded.talk_total add sub s us
          <= Rounded.talk_total add sub (Rounded.teacher_label add sub us) us).
Proof. apply r_teacher_first. Qed.

Lemma X7_teacher_first_among_maximal_witness :
  exists l1 l2,
    first_seen_from [] (map speaker ex_class)
    = l1 ++ Rounded.teacher_label Qplus Qminus ex_class :: l2
    /\ (forall s, In s l1 ->
          Rounded.talk_total Qplus Qminus s ex_class
          < Rounded.talk_total Qplus Qminus
              (Rounded.teacher_label Qplus Qminus ex_class) ex_class)
    /\ (forall s, In s l2 ->
          Rounded.talk_total Qplus Qminus s ex_class
          <= Rounded.talk_total Qplus Qminus
               (Rounded.teacher_label Qplus Qminus ex_class) ex_class).
Proof.
  apply (X7_teacher_first_among_maximal Qplus Qminus ex_class). discriminate.
Defined.

(** X8: among the speakers of maximal computed overlap with a segment the
    fused speaker is the one whose first overlapping turn is visited first:
    listing the speakers of the overlapping turns in order of first such
    turn, every speaker before the chosen one has a strictly smaller
    computed total and every speaker after it has no larger one, whatever
    the float operations do. *)
Theorem X8_dominant_first_among_maximal (add sub : Q -> Q -> Q)
    (turns : list turn) (s : segment) :
  (exists t, In t turns
             /\ 0 < Rounded.overlap_duration sub (seg_start s) (seg_end s) t) ->
  exists l1 l2,
    first_seen_from []
      (map turn_speaker
           (Rounded.overlapping sub (seg_start s) (seg_end s) turns))
    = l1 ++ speaker (Rounded.fuse_segment add sub turns s) :: l2
    /\ (forall a, In a l1 ->
          Rounded.overlap_total add sub (seg_start s) (seg_end s) a turns
          < Rounded.overlap_total add sub (seg_start s) (seg_end s)
              (speaker (Rounded.fuse_segment add sub turns s)) turns)
    /\ (forall a, In a l2 ->
          Rounded.overlap_total add sub (seg_start s) (seg_end s) a turns
          <= Rounded.overlap_total add sub (seg_start s) (seg_end s)
               (speaker (Rounded.fuse_segment add sub turns s)) turns).
Proof.
  intros Hex.
  exact (r_dominant_first add sub (seg_start s) (seg_end s) turns Hex).
Qed.

Lemma X8_dominant_first_among_maximal_witness :
  exists l1 l2,
    first_seen_from []
      (map turn_speaker
           (Rounded.overlapping Qminus 0 10 [mkTurn 0 5 "A"; mkTurn 5 10 "B"]))
    = l1 ++ speaker (Rounded.fuse_segment Qplus Qminus
                       [mkTurn 0 5 "A"; mkTurn 5 10 "B"]
                       (mkSegment 0 10 [])) :: l2
    /\ (forall a, In a l1 ->
          Rounded.overlap_total Qplus Qminus 0 10 a
            [mkTurn 0 5 "A"; mkTurn 5 10 "B"]
          < Rounded.overlap_total Qplus Qminus 0 10
              (speaker (Rounded.fuse_segment Qplus Qminus
                          [mkTurn 0 5 "A"; mkTurn 5 10 "B"]
                          (mkSegment 0 10 [])))
              [mkTurn 0 5 "A"; mkTurn 5 10 "B"])
    /\ (forall a, In a l2 ->
          Rounded.overlap_total Qplus Qminus 0 10 a
            [mkTurn 0 5 "A"; mkTurn 5 10 "B"]
          <= Rounded.overlap_total Qplus Qminus 0 10
               (speaker (Rounded.fuse_segment Qplus Qminus
                           [mkTurn 0 5 "A"; mkTurn 5 10 "B"]
                           (mkSegment 0 10 [])))
               [mkTurn 0 5 "A"; mkTurn 5 10 "B"]).
Proof.
  apply (X8_dominant_first_among_maximal Qplus Qminus
           [mkTurn 0 5 "A"; mkTurn 5 10 "B"] (mkSegment 0 10 [])).
  exists (mkTurn 0 5 "A"). split; [now left|reflexivity].
Defined.
